(** * Video engagement tracker: the funnel's [VideoPlayer] component

    A shallow embedding of [src/components/VideoPlayer.tsx]: the Progress
    Store over [localStorage], the identity extractors, the configuration
    loader and the component's timers and event handlers, followed by the
    properties of the specification that concern them.

    Conventions.
    - A JavaScript number is modelled by a rational ([Q]); the numbers
      of a record are finite, and [===] on numbers is [Qeq]. Only the
      result of ToNumber ([JsNumber]) can be NaN or infinite.
    - A JavaScript string is a [string]; one character stands for one code
      unit.
    - [Date.now()] is an integer number of milliseconds ([Z]).
    - An exception is an explicit [Throw] outcome; [try { .. } catch (e) {}]
      is [catch_all]. *)

From Stdlib Require Import ZArith QArith Qround String Ascii List Bool Lia.
From stdpp Require Import base option gmap strings list.

Set Warnings "-register-all".

Local Open Scope string_scope.
Local Open Scope Z_scope.

(** ** JavaScript values and completions *)

Inductive JsValue : Type :=
| JsUndefined
| JsNull
| JsBool (b : bool)
| JsNum (q : Q)
| JsStr (s : string)
| JsObj (fields : list (string * JsValue))
| JsArr (elems : list JsValue).

Inductive JsError : Type :=
| TypeError
| SyntaxError
| SecurityError
| QuotaExceededError.

Inductive completion (A : Type) : Type :=
| Normal (a : A)
| Throw (e : JsError).
Arguments Normal {A} a.
Arguments Throw {A} e.

Definition cbind {A B} (c : completion A) (k : A -> completion B) : completion B :=
  match c with
  | Normal a => k a
  | Throw e => Throw e
  end.

Notation "'let!' x ':=' c 'in' k" := (cbind c (fun x => k))
  (at level 10, x name, c at level 100, k at level 200).

(** [try { body } catch (e) {}]: the exception, if any, is dropped. *)
Definition catch_all {A} (body : completion A) : option A :=
  match body with
  | Normal a => Some a
  | Throw _ => None
  end.

(** ToBoolean. *)
Definition truthy (v : JsValue) : bool :=
  match v with
  | JsUndefined | JsNull => false
  | JsBool b => b
  | JsNum q => negb (Qeq_bool q 0)
  | JsStr s => negb (String.eqb s "")
  | JsObj _ | JsArr _ => true
  end.

(** [a || b]. *)
Definition js_or (a b : JsValue) : JsValue := if truthy a then a else b.

Fixpoint assoc_get (fields : list (string * JsValue)) (name : string) : JsValue :=
  match fields with
  | [] => JsUndefined
  | (k, v) :: rest => if String.eqb k name then v else assoc_get rest name
  end.

(** [v.name] for a data property [name] that no prototype defines: a
    TypeError on [null] and [undefined], the field of an object, and
    [undefined] on every other value. *)
Definition get_prop (v : JsValue) (name : string) : completion JsValue :=
  match v with
  | JsUndefined | JsNull => Throw TypeError
  | JsObj fields => Normal (assoc_get fields name)
  | _ => Normal JsUndefined
  end.

(** ** The platform: JSON and Web Storage *)

(** [JSON.parse] ([None] stands for its SyntaxError) and [JSON.stringify].
    The empty text is not JSON. *)
Class JsonCodec : Type := {
  JSON_parse : string -> option JsValue;
  JSON_stringify : JsValue -> string;
  JSON_parse_empty : JSON_parse "" = None
}.

Definition parse_json `{JsonCodec} (text : string) : completion JsValue :=
  match JSON_parse text with
  | Some v => Normal v
  | None => Throw SyntaxError
  end.

(** [localStorage]: its entries, whether access is denied (every call
    throws a SecurityError) and whether the quota is exhausted ([setItem]
    throws a QuotaExceededError). *)
Record Storage : Type := mkStorage {
  entries : gmap string string;
  denied : bool;
  quota_full : bool
}.

Definition getItem (st : Storage) (key : string) : completion (option string) :=
  if denied st then Throw SecurityError else Normal (entries st !! key).

Definition setItem (st : Storage) (key value : string) : completion Storage :=
  if denied st then Throw SecurityError
  else if quota_full st then Throw QuotaExceededError
  else Normal (mkStorage (<[key := value]> (entries st)) (denied st) (quota_full st)).

Definition removeItem (st : Storage) (key : string) : completion Storage :=
  if denied st then Throw SecurityError
  else Normal (mkStorage (delete key (entries st)) (denied st) (quota_full st)).

(** ** Progress Store *)

Definition STORAGE_KEY : string := "video_progress".

(** The template literal [`${STORAGE_KEY}_${videoId}`]. *)
Definition progress_key (videoId : string) : string :=
  STORAGE_KEY +:+ "_" +:+ videoId.

(** The object literal [{ time, timestamp: Date.now() }]. *)
Definition progress_record (time : Q) (now : Z) : JsValue :=
  JsObj [("time", JsNum time); ("timestamp", JsNum (inject_Z now))].

Section ProgressStore.
Context `{JsonCodec}.

(** The [try] block of [getSavedProgress]: [Some v] when its [return]
    statement is reached with [v], [None] when the block falls through. *)
Definition getSavedProgress_try (st : Storage) (videoId : string)
  : completion (option JsValue) :=
  let! saved := getItem st (progress_key videoId) in
  match saved with
  | Some text =>
      if negb (String.eqb text "") then
        let! data := parse_json text in
        let! time := get_prop data "time" in
        Normal (Some (js_or time (JsNum 0)))
      else Normal None
  | None => Normal None
  end.

Definition getSavedProgress (st : Storage) (videoId : string) : JsValue :=
  match catch_all (getSavedProgress_try st videoId) with
  | Some (Some v) => v
  | _ => JsNum 0
  end.

Definition saveProgress_try (st : Storage) (videoId : string) (time : Q) (now : Z)
  : completion Storage :=
  setItem st (progress_key videoId) (JSON_stringify (progress_record time now)).

Definition saveProgress (st : Storage) (videoId : string) (time : Q) (now : Z)
  : Storage :=
  match catch_all (saveProgress_try st videoId time now) with
  | Some st' => st'
  | None => st
  end.

Definition clearProgress_try (st : Storage) (videoId : string) : completion Storage :=
  removeItem st (progress_key videoId).

Definition clearProgress (st : Storage) (videoId : string) : Storage :=
  match catch_all (clearProgress_try st videoId) with
  | Some st' => st'
  | None => st
  end.
End ProgressStore.

(** ** A reference JSON codec

    An executable instance of [JsonCodec] for a subset of JSON (no
    exponents, no unicode escapes), used to run the Progress Store on
    concrete stores. The properties below hold for every codec. *)

Module MiniJSON.
Local Open Scope char_scope.

Definition is_digit (c : ascii) : bool :=
  let n := nat_of_ascii c in (48 <=? n)%nat && (n <=? 57)%nat.

Definition digit_val (c : ascii) : Z := Z.of_nat (nat_of_ascii c) - 48.

Definition digit_char (d : Z) : ascii := ascii_of_nat (48 + Z.to_nat d).

(** The double quote. *)
Definition dquote : ascii := ascii_of_nat 34.

Definition is_space (c : ascii) : bool :=
  match nat_of_ascii c with
  | 32%nat | 9%nat | 10%nat | 13%nat => true
  | _ => false
  end.

Fixpoint skip_ws (s : list ascii) : list ascii :=
  match s with
  | c :: r => if is_space c then skip_ws r else s
  | [] => []
  end.

(** *** Printing *)

Fixpoint print_digits (fuel : nat) (n : Z) (acc : list ascii) : list ascii :=
  match fuel with
  | O => acc
  | S f =>
      let acc' := digit_char (n mod 10) :: acc in
      if (n / 10 =? 0)%Z then acc' else print_digits f (n / 10) acc'
  end.

Definition print_int (n : Z) : list ascii :=
  print_digits (S (Z.to_nat (Z.log2 n))) n [].

Fixpoint print_frac (fuel : nat) (r den : Z) : list ascii :=
  match fuel with
  | O => []
  | S f =>
      if (r =? 0)%Z then []
      else digit_char (10 * r / den) :: print_frac f ((10 * r) mod den) den
  end.

Definition print_num (q : Q) : list ascii :=
  let n := Z.abs (Qnum q) in
  let d := Z.pos (Qden q) in
  let sign := if (Qnum q <? 0)%Z then ["-"] else [] in
  let frac := if (n mod d =? 0)%Z then [] else "." :: print_frac 20 (n mod d) d in
  (sign ++ print_int (n / d) ++ frac)%list.

Fixpoint print_chars (s : list ascii) : list ascii :=
  match s with
  | [] => []
  | c :: r =>
      if Ascii.eqb c dquote then "\" :: dquote :: print_chars r
      else if Ascii.eqb c "\" then "\" :: "\" :: print_chars r
      else c :: print_chars r
  end.

Definition print_string (s : string) : list ascii :=
  (dquote :: print_chars (list_ascii_of_string s) ++ [dquote])%list.

Fixpoint print (v : JsValue) : list ascii :=
  match v with
  | JsUndefined | JsNull => list_ascii_of_string "null"
  | JsBool true => list_ascii_of_string "true"
  | JsBool false => list_ascii_of_string "false"
  | JsNum q => print_num q
  | JsStr s => print_string s
  | JsObj fields =>
      let fix members (fs : list (string * JsValue)) : list ascii :=
        match fs with
        | [] => []
        | [(k, x)] => (print_string k ++ ":" :: print x)%list
        | (k, x) :: rest => (print_string k ++ ":" :: print x ++ "," :: members rest)%list
        end in
      ("{" :: members fields ++ ["}"])%list
  | JsArr elems =>
      let fix items (xs : list JsValue) : list ascii :=
        match xs with
        | [] => []
        | [x] => print x
        | x :: rest => (print x ++ "," :: items rest)%list
        end in
      ("[" :: items elems ++ ["]"])%list
  end.

Definition stringify (v : JsValue) : string := string_of_list_ascii (print v).

(** *** Parsing *)

Fixpoint read_digits (s : list ascii) (acc : Z) (count : nat) : Z * nat * list ascii :=
  match s with
  | c :: r => if is_digit c then read_digits r (10 * acc + digit_val c) (S count)
              else (acc, count, s)
  | [] => (acc, count, [])
  end.

Definition parse_num (s : list ascii) : option (JsValue * list ascii) :=
  let '(neg, s1) := match s with "-" :: r => (true, r) | _ => (false, s) end in
  let '(ip, n1, s2) := read_digits s1 0 0%nat in
  match n1 with
  | O => None
  | _ =>
      let '(fp, n2, s3) :=
        match s2 with
        | "." :: r => read_digits r 0 0%nat
        | _ => (0, 0%nat, s2)
        end in
      match s2, n2 with
      | "." :: _, O => None
      | _, _ =>
          let scale := 10 ^ Z.of_nat n2 in
          let m := ip * scale + fp in
          let q := Qred (Qmake (if neg then - m else m) (Z.to_pos scale)) in
          Some (JsNum q, s3)
      end
  end.

Fixpoint parse_chars (s : list ascii) (acc : list ascii) : option (string * list ascii) :=
  match s with
  | [] => None
  | c :: r =>
      if Ascii.eqb c dquote then Some (string_of_list_ascii (rev acc), r)
      else if Ascii.eqb c "\" then
        match r with
        | e :: r' =>
            if Ascii.eqb e dquote || Ascii.eqb e "\" then parse_chars r' (e :: acc)
            else None
        | [] => None
        end
      else parse_chars r (c :: acc)
  end.

(** [obj[k] = v]: a repeated key keeps its place and takes the new value. *)
Fixpoint assoc_set (fields : list (string * JsValue)) (k : string) (v : JsValue)
  : list (string * JsValue) :=
  match fields with
  | [] => [(k, v)]
  | (k', v') :: rest =>
      if String.eqb k' k then (k', v) :: rest else (k', v') :: assoc_set rest k v
  end.

Fixpoint parse_value (fuel : nat) (s : list ascii) : option (JsValue * list ascii) :=
  match fuel with
  | O => None
  | S f =>
      let fix parse_elems (n : nat) (s : list ascii) (acc : list JsValue)
        : option (JsValue * list ascii) :=
        match n with
        | O => None
        | S n' =>
            match parse_value f s with
            | Some (v, r) =>
                match skip_ws r with
                | "," :: r' => parse_elems n' r' (v :: acc)
                | "]" :: r' => Some (JsArr (rev (v :: acc)), r')
                | _ => None
                end
            | None => None
            end
        end in
      let fix parse_members (n : nat) (s : list ascii) (acc : list (string * JsValue))
        : option (JsValue * list ascii) :=
        match n with
        | O => None
        | S n' =>
            match skip_ws s with
            | q :: r =>
                if Ascii.eqb q dquote then
                  match parse_chars r [] with
                  | Some (k, r1) =>
                      match skip_ws r1 with
                      | ":" :: r2 =>
                          match parse_value f r2 with
                          | Some (v, r3) =>
                              match skip_ws r3 with
                              | "," :: r4 => parse_members n' r4 (assoc_set acc k v)
                              | "}" :: r4 => Some (JsObj (assoc_set acc k v), r4)
                              | _ => None
                              end
                          | None => None
                          end
                      | _ => None
                      end
                  | None => None
                  end
                else None
            | [] => None
            end
        end in
      match skip_ws s with
      | "n" :: "u" :: "l" :: "l" :: r => Some (JsNull, r)
      | "t" :: "r" :: "u" :: "e" :: r => Some (JsBool true, r)
      | "f" :: "a" :: "l" :: "s" :: "e" :: r => Some (JsBool false, r)
      | "[" :: r =>
          match skip_ws r with
          | "]" :: r' => Some (JsArr [], r')
          | _ => parse_elems (length r) r []
          end
      | "{" :: r =>
          match skip_ws r with
          | "}" :: r' => Some (JsObj [], r')
          | _ => parse_members (length r) r []
          end
      | q :: r =>
          if Ascii.eqb q dquote then
            match parse_chars r [] with
            | Some (str, r') => Some (JsStr str, r')
            | None => None
            end
          else parse_num (q :: r)
      | [] => None
      end
  end.

Definition parse (text : string) : option JsValue :=
  let s := list_ascii_of_string text in
  match parse_value (S (length s)) s with
  | Some (v, r) => match skip_ws r with [] => Some v | _ => None end
  | None => None
  end.

Definition codec : JsonCodec :=
  {| JSON_parse := parse; JSON_stringify := stringify; JSON_parse_empty := eq_refl |}.
End MiniJSON.

#[global] Existing Instance MiniJSON.codec.


(** ** Regular expressions

    A backtracking matcher with the priorities of ECMAScript's: greedy
    quantifiers that refuse an empty iteration, ordered alternation,
    numbered capture groups. Groups inside a quantified part are not reset
    between iterations; the component's three patterns, written in this
    syntax below, have none. *)

Inductive regex : Type :=
| REps
| RBol                                   (* ^ *)
| RClass (p : ascii -> bool)             (* one character of a class *)
| RSeq (a b : regex)
| RAlt (a b : regex)                     (* a|b *)
| RStar (a : regex)                      (* a* *)
| ROpt (a : regex)                       (* a? *)
| RGroup (g : nat) (a : regex).          (* (a), the g-th group *)

(** The groups that took part in a match, most recent first. *)
Definition captures : Type := list (nat * list ascii).

Fixpoint group (m : captures) (g : nat) : option string :=
  match m with
  | [] => None
  | (g', s) :: rest => if (g' =? g)%nat then Some (string_of_list_ascii s) else group rest g
  end.

Definition rcont : Type := nat -> list ascii -> captures -> option captures.

(** [rmatch r i s c k]: match [r] at index [i], where [s] is the rest of
    the input, then continue with [k]; [None] makes the caller backtrack. *)
Fixpoint rmatch (r : regex) (i : nat) (s : list ascii) (c : captures) (k : rcont)
  : option captures :=
  match r with
  | REps => k i s c
  | RBol => if (i =? 0)%nat then k i s c else None
  | RClass p =>
      match s with
      | x :: s' => if p x then k (S i) s' c else None
      | [] => None
      end
  | RSeq a b => rmatch a i s c (fun i' s' c' => rmatch b i' s' c' k)
  | RAlt a b =>
      match rmatch a i s c k with
      | Some m => Some m
      | None => rmatch b i s c k
      end
  | ROpt a =>
      match rmatch a i s c k with
      | Some m => Some m
      | None => k i s c
      end
  | RStar a =>
      (fix loop (n : nat) (i : nat) (s : list ascii) (c : captures) : option captures :=
         match n with
         | O => k i s c
         | S n' =>
             match rmatch a i s c
                     (fun i' s' c' => if (i' =? i)%nat then None else loop n' i' s' c') with
             | Some m => Some m
             | None => k i s c
             end
         end) (length s) i s c
  | RGroup g a =>
      rmatch a i s c (fun i' s' c' => k i' s' ((g, take (i' - i) s) :: c'))
  end.

(** The first index, from [i] on, at which [r] matches. *)
Fixpoint rsearch (r : regex) (i : nat) (s : list ascii) : option captures :=
  match rmatch r i s [] (fun i' _ c => Some ((0%nat, take (i' - i) s) :: c)) with
  | Some m => Some m
  | None =>
      match s with
      | [] => None
      | _ :: s' => rsearch r (S i) s'
      end
  end.

(** [str.match(re)] for a pattern without the [g] flag. *)
Definition js_match (str : string) (re : regex) : option captures :=
  rsearch re 0 (list_ascii_of_string str).

Definition in_range (lo hi : nat) (c : ascii) : bool :=
  let n := nat_of_ascii c in (lo <=? n)%nat && (n <=? hi)%nat.

Definition RChr (c : ascii) : regex := RClass (Ascii.eqb c).
(** [.]: any character but a line terminator (line feed and carriage
    return; the two Unicode separators are not single characters here). *)
Definition RAny : regex :=
  RClass (fun c => negb (Ascii.eqb c "010"%char || Ascii.eqb c "013"%char)).
Definition is_d (c : ascii) : bool := in_range 48 57 c.
Definition is_w (c : ascii) : bool :=
  in_range 97 122 c || in_range 65 90 c || in_range 48 57 c || Ascii.eqb c "_"%char.
Definition RNoneOf (cs : list ascii) : regex :=
  RClass (fun c => negb (existsb (Ascii.eqb c) cs)).
Definition RPlus (a : regex) : regex := RSeq a (RStar a).

Fixpoint RLit (s : string) : regex :=
  match s with
  | EmptyString => REps
  | String c rest => RSeq (RChr c) (RLit rest)
  end.

Fixpoint RSeqs (rs : list regex) : regex :=
  match rs with
  | [] => REps
  | [r] => r
  | r :: rest => RSeq r (RSeqs rest)
  end.

(** ** Identity extractors *)

(** The pattern of [getYouTubeVideoId], shown here with a space before each
    closing parenthesis that follows a star:
    [/^.*((youtu.be\/)|(v\/)|(\/u\/\w\/)|(embed\/)|(watch\?))\??v?=?([^#&?]* ).*/] *)
Definition youtube_regExp : regex :=
  RSeqs [ RBol; RStar RAny;
          RGroup 1 (RAlt (RGroup 2 (RSeqs [RLit "youtu"; RAny; RLit "be/"]))
                   (RAlt (RGroup 3 (RLit "v/"))
                   (RAlt (RGroup 4 (RSeqs [RLit "/u/"; RClass is_w; RLit "/"]))
                   (RAlt (RGroup 5 (RLit "embed/"))
                         (RGroup 6 (RLit "watch?"))))));
          ROpt (RChr "?"); ROpt (RChr "v"); ROpt (RChr "=");
          RGroup 7 (RStar (RNoneOf ["#"; "&"; "?"]%char));
          RStar RAny ].

(** [match[7].length]: a TypeError when the group is [undefined]. *)
Definition getYouTubeVideoId (url : string) : completion (option string) :=
  match js_match url youtube_regExp with
  | Some m =>
      match group m 7 with
      | Some id => Normal (if (String.length id =? 11)%nat then Some id else None)
      | None => Throw TypeError
      end
  | None => Normal None
  end.

(** [/\/d\/([a-zA-Z0-9_-]+)/] *)
Definition drive_regExp : regex :=
  RSeqs [ RLit "/d/";
          RGroup 1 (RPlus (RClass (fun c => is_w c || Ascii.eqb c "-"%char))) ].

(** [match ? match[1] : null] *)
Definition first_group (m : option captures) : option string :=
  match m with
  | Some m => group m 1
  | None => None
  end.

Definition getGoogleDriveFileId (url : string) : option string :=
  first_group (js_match url drive_regExp).

(** [/vimeo\.com\/(?:video\/)?(\d+)/] *)
Definition vimeo_regExp : regex :=
  RSeqs [ RLit "vimeo.com/"; ROpt (RLit "video/"); RGroup 1 (RPlus (RClass is_d)) ].

Definition getVimeoVideoId (url : string) : option string :=
  first_group (js_match url vimeo_regExp).


(** ** Configuration *)

Record VideoConfig : Type := mkVideoConfig {
  cfg_id : Z;
  video_url : string;
  video_type : string;
  video_path : option string;
  button_delay_seconds : Q
}.

Definition DEFAULT_VIDEO_URL : string := "https://vimeo.com/1142286537".
Definition DEFAULT_VIDEO_TYPE : string := "vimeo".
Definition DEFAULT_BUTTON_DELAY : Q := 180.

(** The object literal handed to [setVideoConfig] on both fallback paths. *)
Definition default_config : VideoConfig :=
  {| cfg_id := 0;
     video_url := DEFAULT_VIDEO_URL;
     video_type := DEFAULT_VIDEO_TYPE;
     video_path := None;
     button_delay_seconds := DEFAULT_BUTTON_DELAY |}.

(** What [await response.json()] yields: [null] (or another value without
    properties), or an object whose [video] field is falsy ([None]) or a
    configuration. *)
Inductive ResponseData : Type :=
| DataNull
| DataObject (video : option VideoConfig).

(** How [GET /api/video/current] ends. *)
Inductive FetchOutcome : Type :=
| FetchRejected                  (* [fetch] rejects: network failure *)
| BodyRejected                   (* [response.json()] rejects: body is not JSON *)
| BodyParsed (data : ResponseData).

(** The [try] block of [loadVideoConfig]: the argument of its call to
    [setVideoConfig]. *)
Definition loadVideoConfig_try (r : FetchOutcome) : completion VideoConfig :=
  match r with
  | FetchRejected => Throw TypeError
  | BodyRejected => Throw SyntaxError
  | BodyParsed DataNull => Throw TypeError
  | BodyParsed (DataObject (Some video)) => Normal video
  | BodyParsed (DataObject None) => Normal default_config
  end.

(** [loadVideoConfig]: the configuration the component ends up with. *)
Definition loadVideoConfig (r : FetchOutcome) : VideoConfig :=
  match catch_all (loadVideoConfig_try r) with
  | Some cfg => cfg
  | None => default_config
  end.

(** ** Numbers read back from the store *)

Definition q_ge (a b : Q) : bool := Qle_bool b a.
Definition q_gt (a b : Q) : bool := negb (Qle_bool a b).

(** What ToNumber yields. The numbers of a record are finite (see the
    conventions); ToNumber of a string can also be NaN or an infinity. *)
Inductive JsNumber : Type :=
| NaN
| Infinite (negative : bool)
| Finite (q : Q).

(** StrWhiteSpaceChar among the code units below 256: TAB, LF, VT, FF,
    CR, SP and NBSP. *)
Definition is_str_ws (c : ascii) : bool :=
  let n := nat_of_ascii c in
  ((9 <=? n)%nat && (n <=? 13)%nat) || (n =? 32)%nat || (n =? 160)%nat.

Fixpoint trim_start (l : list ascii) : list ascii :=
  match l with
  | c :: rest => if is_str_ws c then trim_start rest else l
  | [] => []
  end.

Definition trim (l : list ascii) : list ascii := rev (trim_start (rev (trim_start l))).

(** The value of a digit in a base up to 16. *)
Definition digit_of (base : Z) (c : ascii) : option Z :=
  let n := Z.of_nat (nat_of_ascii c) in
  let d := if (48 <=? n) && (n <=? 57) then n - 48
           else if (97 <=? n) && (n <=? 102) then n - 87
           else if (65 <=? n) && (n <=? 70) then n - 55
           else 16 in
  if d <? base then Some d else None.

Fixpoint digits_value (base : Z) (ds : list ascii) (acc : Z) : option Z :=
  match ds with
  | [] => Some acc
  | c :: rest =>
      match digit_of base c with
      | Some d => digits_value base rest (acc * base + d)
      | None => None
      end
  end.

(** NonDecimalIntegerLiteral: [0x], [0o] or [0b], then at least one digit
    of the base; [None] when the text does not start with such a prefix. *)
Definition radix_literal (l : list ascii) : option JsNumber :=
  match l with
  | "0"%char :: p :: ds =>
      let base :=
        if Ascii.eqb p "x" || Ascii.eqb p "X" then Some 16
        else if Ascii.eqb p "o" || Ascii.eqb p "O" then Some 8
        else if Ascii.eqb p "b" || Ascii.eqb p "B" then Some 2
        else None in
      match base, ds with
      | Some b, _ :: _ =>
          Some (match digits_value b ds 0 with
                | Some n => Finite (inject_Z n)
                | None => NaN
                end)
      | Some _, [] => Some NaN
      | None, _ => None
      end
  | _ => None
  end.

(** The longest prefix of decimal digits, and the rest. *)
Fixpoint take_digits (l : list ascii) : list ascii * list ascii :=
  match l with
  | c :: rest =>
      if is_d c then let '(ds, r) := take_digits rest in (c :: ds, r) else ([], l)
  | [] => ([], [])
  end.

Definition dec_value (ds : list ascii) : Z :=
  fold_left (fun acc c => acc * 10 + (Z.of_nat (nat_of_ascii c) - 48)) ds 0.

(** ExponentPart, optional: [e] or [E], an optional sign and at least one
    digit, up to the end of the text. *)
Definition exponent_part (l : list ascii) : option Z :=
  match l with
  | [] => Some 0
  | e :: rest =>
      if Ascii.eqb e "e" || Ascii.eqb e "E" then
        let '(neg, rest) :=
          match rest with
          | "-"%char :: r => (true, r)
          | "+"%char :: r => (false, r)
          | _ => (false, rest)
          end in
        match take_digits rest with
        | ((_ :: _) as ds, []) => Some (if neg then - dec_value ds else dec_value ds)
        | _ => None
        end
      else None
  end.

(** StrDecimalLiteral: an optional sign, then [Infinity] or digits with
    an optional fraction and exponent, one digit at least. *)
Definition str_decimal (l : list ascii) : JsNumber :=
  let '(neg, l) :=
    match l with
    | "-"%char :: r => (true, r)
    | "+"%char :: r => (false, r)
    | _ => (false, l)
    end in
  if String.eqb (string_of_list_ascii l) "Infinity" then Infinite neg
  else
    let '(ip, l) := take_digits l in
    let '(fp, l) :=
      match l with
      | "."%char :: r => take_digits r
      | _ => ([], l)
      end in
    match (ip ++ fp)%list, exponent_part l with
    | _ :: _, Some e =>
        let q := (inject_Z (dec_value (ip ++ fp)) * Qpower 10 (e - Z.of_nat (length fp)))%Q in
        Finite (Qred (if neg then - q else q))
    | _, _ => NaN
    end.

(** StringToNumber: white space around the literal is dropped, and the
    empty text is 0. *)
Definition string_to_number (s : string) : JsNumber :=
  match trim (list_ascii_of_string s) with
  | [] => Finite 0
  | l =>
      match radix_literal l with
      | Some n => n
      | None => str_decimal l
      end
  end.

(** ToNumber. An array is converted through its text, the texts of its
    elements joined by commas, where [null] and [undefined] give the empty
    text: no element gives the empty text, hence 0; one element gives the
    text of that element, which for a number reads back as that number;
    two or more give a text with a comma, which is no numeric literal. An
    object is converted through the text [[object Object]]. *)
Fixpoint to_number (v : JsValue) : JsNumber :=
  match v with
  | JsUndefined => NaN
  | JsNull => Finite 0
  | JsBool b => Finite (if b then 1 else 0)
  | JsNum q => Finite q
  | JsStr s => string_to_number s
  | JsObj _ => NaN
  | JsArr [] => Finite 0
  | JsArr [x] =>
      match x with
      | JsUndefined | JsNull => Finite 0
      | JsBool _ | JsObj _ => NaN
      | JsNum q => Finite q
      | JsStr s => string_to_number s
      | JsArr _ => to_number x
      end
  | JsArr _ => NaN
  end.

(** [v > 0] *)
Definition js_gt_zero (v : JsValue) : bool :=
  match to_number v with
  | Finite q => q_gt q 0
  | Infinite negative => negb negative
  | NaN => false
  end.

(** [Math.floor] *)
Definition math_floor (n : JsNumber) : JsNumber :=
  match n with
  | Finite q => Finite (inject_Z (Qfloor q))
  | _ => n
  end.

(** ** The component *)

Inductive PlayState : Type := Playing | Paused | Ended.

(** A media element or embedded player as the component sees it. *)
Record Media : Type := mkMedia {
  currentTime : Q;
  play_state : PlayState;
  muted : bool
}.

Definition seek (t : Q) (m : Media) : Media := mkMedia t (play_state m) (muted m).
Definition play (m : Media) : Media := mkMedia (currentTime m) Playing (muted m).
Definition set_muted (b : bool) (m : Media) : Media := mkMedia (currentTime m) (play_state m) b.
Definition set_play_state (s : PlayState) (m : Media) : Media := mkMedia (currentTime m) s (muted m).
Definition fresh_media : Media := mkMedia 0 Paused false.

(** What a callback created during a render sees of that render: the
    values of the [useState] bindings [videoConfig] and [buttonEnabled].
    They are constants of the render; later calls of the setters do not
    change them. *)
Record Closure : Type := mkClosure {
  cl_videoConfig : option VideoConfig;
  cl_buttonEnabled : bool
}.

(** The object built by [new window.YT.Player(..)]: its playback state,
    whether its methods are attached yet, and the render that supplied its
    event handlers. *)
Record YTPlayer : Type := mkYTPlayer {
  yt_media : Media;
  yt_ready : bool;
  yt_render : Closure
}.

(** Callbacks handed to [setInterval] and [setTimeout]. *)
Inductive Task : Type :=
| HideHud                                        (* setTimeout, 5000 *)
| PollVimeo (cl : Closure) (startTime : Z)       (* setInterval, 300 *)
| PollGoogleDrive (cl : Closure) (startTime : Z) (* setInterval, 300 *)
| PollLocal (cl : Closure)                       (* setInterval, 300 *)
| PollYouTube (cl : Closure)                     (* setInterval, 300 *)
| SaveLocal                                      (* setInterval, 3000 *)
| SaveYouTube.                                   (* setInterval, 3000 *)

Definition is_interval (t : Task) : bool :=
  match t with
  | HideHud => false
  | _ => true
  end.

Definition is_poll (t : Task) : bool :=
  match t with
  | PollVimeo _ _ | PollGoogleDrive _ _ | PollLocal _ | PollYouTube _ => true
  | _ => false
  end.

(** Effects visible outside the component. *)
Inductive Obs : Type :=
| ObsUnlock                                  (* onButtonEnable() *)
| ObsPlayStart                               (* onPlayStart() *)
| ObsSave (videoId : string) (time : Q)      (* saveProgress(videoId, time) *)
| ObsClear (videoId : string).               (* clearProgress(videoId) *)

(** [useState] *)
Record ReactState : Type := mkReactState {
  videoConfig : option VideoConfig;
  buttonEnabled : bool;
  showHudOverlay : bool;
  showPlayOverlay : bool
}.

(** [useRef], but for [localVideoRef], which React keeps equal to the
    mounted [<video>] element ([video_el] below), and for
    [videoContainerRef] and [videoConfigRef], which are never read. *)
Record Refs : Type := mkRefs {
  playerRef : option YTPlayer;
  progressIntervalRef : option nat;
  saveProgressIntervalRef : option nat;
  trackingStartedRef : bool;
  hudOverlayTimeoutRef : option nat;
  currentVideoIdRef : string
}.

(** The page around the component. *)
Record Page : Type := mkPage {
  mounted : bool;
  has_onPlayStart : bool;                       (* the optional prop is given *)
  video_el : option Media;                      (* the <video>, when rendered *)
  vimeo_el : option Media;                      (* iframe #vimeo-player, when rendered *)
  window_YT : bool;                             (* the iframe API is loaded *)
  onYouTubeIframeAPIReady : option (string * Closure);
  play_promise : option Closure;                (* pending video.play().then(..) *)
  beforeunload : option Closure                 (* the registered listener *)
}.

(** Storage, clock, timers and the observable effects so far. *)
Record Sys : Type := mkSys {
  storage : Storage;
  session_ok : bool;                            (* sessionStorage.setItem succeeds *)
  now : Z;                                      (* Date.now() *)
  timers : gmap nat Task;                       (* live timers by id *)
  next_timer : nat;
  trace : list Obs
}.

Record World : Type := mkWorld {
  react : ReactState;
  refs : Refs;
  page : Page;
  sys : Sys
}.

(** *** Field updates *)

Definition on_react (f : ReactState -> ReactState) (w : World) : World :=
  mkWorld (f (react w)) (refs w) (page w) (sys w).
Definition on_refs (f : Refs -> Refs) (w : World) : World :=
  mkWorld (react w) (f (refs w)) (page w) (sys w).
Definition on_page (f : Page -> Page) (w : World) : World :=
  mkWorld (react w) (refs w) (f (page w)) (sys w).
Definition on_sys (f : Sys -> Sys) (w : World) : World :=
  mkWorld (react w) (refs w) (page w) (f (sys w)).

Definition set_videoConfig (v : option VideoConfig) (s : ReactState) : ReactState :=
  mkReactState v (buttonEnabled s) (showHudOverlay s) (showPlayOverlay s).
Definition set_buttonEnabled (v : bool) (s : ReactState) : ReactState :=
  mkReactState (videoConfig s) v (showHudOverlay s) (showPlayOverlay s).
Definition set_showHudOverlay (v : bool) (s : ReactState) : ReactState :=
  mkReactState (videoConfig s) (buttonEnabled s) v (showPlayOverlay s).
Definition set_showPlayOverlay (v : bool) (s : ReactState) : ReactState :=
  mkReactState (videoConfig s) (buttonEnabled s) (showHudOverlay s) v.

Definition set_playerRef (v : option YTPlayer) (r : Refs) : Refs :=
  mkRefs v (progressIntervalRef r) (saveProgressIntervalRef r) (trackingStartedRef r)
         (hudOverlayTimeoutRef r) (currentVideoIdRef r).
Definition set_progressIntervalRef (v : option nat) (r : Refs) : Refs :=
  mkRefs (playerRef r) v (saveProgressIntervalRef r) (trackingStartedRef r)
         (hudOverlayTimeoutRef r) (currentVideoIdRef r).
Definition set_saveProgressIntervalRef (v : option nat) (r : Refs) : Refs :=
  mkRefs (playerRef r) (progressIntervalRef r) v (trackingStartedRef r)
         (hudOverlayTimeoutRef r) (currentVideoIdRef r).
Definition set_trackingStartedRef (v : bool) (r : Refs) : Refs :=
  mkRefs (playerRef r) (progressIntervalRef r) (saveProgressIntervalRef r) v
         (hudOverlayTimeoutRef r) (currentVideoIdRef r).
Definition set_hudOverlayTimeoutRef (v : option nat) (r : Refs) : Refs :=
  mkRefs (playerRef r) (progressIntervalRef r) (saveProgressIntervalRef r)
         (trackingStartedRef r) v (currentVideoIdRef r).
Definition set_currentVideoIdRef (v : string) (r : Refs) : Refs :=
  mkRefs (playerRef r) (progressIntervalRef r) (saveProgressIntervalRef r)
         (trackingStartedRef r) (hudOverlayTimeoutRef r) v.

Definition set_mounted (v : bool) (p : Page) : Page :=
  mkPage v (has_onPlayStart p) (video_el p) (vimeo_el p) (window_YT p)
         (onYouTubeIframeAPIReady p) (play_promise p) (beforeunload p).
Definition set_video_el (v : option Media) (p : Page) : Page :=
  mkPage (mounted p) (has_onPlayStart p) v (vimeo_el p) (window_YT p)
         (onYouTubeIframeAPIReady p) (play_promise p) (beforeunload p).
Definition set_vimeo_el (v : option Media) (p : Page) : Page :=
  mkPage (mounted p) (has_onPlayStart p) (video_el p) v (window_YT p)
         (onYouTubeIframeAPIReady p) (play_promise p) (beforeunload p).
Definition set_window_YT (v : bool) (p : Page) : Page :=
  mkPage (mounted p) (has_onPlayStart p) (video_el p) (vimeo_el p) v
         (onYouTubeIframeAPIReady p) (play_promise p) (beforeunload p).
Definition set_onYouTubeIframeAPIReady (v : option (string * Closure)) (p : Page) : Page :=
  mkPage (mounted p) (has_onPlayStart p) (video_el p) (vimeo_el p) (window_YT p)
         v (play_promise p) (beforeunload p).
Definition set_play_promise (v : option Closure) (p : Page) : Page :=
  mkPage (mounted p) (has_onPlayStart p) (video_el p) (vimeo_el p) (window_YT p)
         (onYouTubeIframeAPIReady p) v (beforeunload p).
Definition set_beforeunload (v : option Closure) (p : Page) : Page :=
  mkPage (mounted p) (has_onPlayStart p) (video_el p) (vimeo_el p) (window_YT p)
         (onYouTubeIframeAPIReady p) (play_promise p) v.

Definition set_storage (v : Storage) (s : Sys) : Sys :=
  mkSys v (session_ok s) (now s) (timers s) (next_timer s) (trace s).
Definition set_now (v : Z) (s : Sys) : Sys :=
  mkSys (storage s) (session_ok s) v (timers s) (next_timer s) (trace s).
Definition set_timers (v : gmap nat Task) (s : Sys) : Sys :=
  mkSys (storage s) (session_ok s) (now s) v (next_timer s) (trace s).
Definition set_next_timer (v : nat) (s : Sys) : Sys :=
  mkSys (storage s) (session_ok s) (now s) (timers s) v (trace s).
Definition set_trace (v : list Obs) (s : Sys) : Sys :=
  mkSys (storage s) (session_ok s) (now s) (timers s) (next_timer s) v.

(** *** Primitive commands *)

(** The state setters of [useState]; React ignores them once the component
    is unmounted. *)
Definition setVideoConfig (v : VideoConfig) (w : World) : World :=
  if mounted (page w) then on_react (set_videoConfig (Some v)) w else w.
Definition setButtonEnabled (v : bool) (w : World) : World :=
  if mounted (page w) then on_react (set_buttonEnabled v) w else w.
Definition setShowHudOverlay (v : bool) (w : World) : World :=
  if mounted (page w) then on_react (set_showHudOverlay v) w else w.
Definition setShowPlayOverlay (v : bool) (w : World) : World :=
  if mounted (page w) then on_react (set_showPlayOverlay v) w else w.

(** The bindings a callback created now closes over. *)
Definition capture (w : World) : Closure :=
  mkClosure (videoConfig (react w)) (buttonEnabled (react w)).

Definition emit (o : Obs) (w : World) : World :=
  on_sys (fun s => set_trace (trace s ++ [o]) s) w.

(** [setInterval] and [setTimeout]: a fresh positive id. *)
Definition setTimer (t : Task) (w : World) : nat * World :=
  let id := next_timer (sys w) in
  (id, on_sys (fun s => set_next_timer (S id) (set_timers (<[id := t]> (timers s)) s)) w).

(** [clearInterval] and [clearTimeout]. *)
Definition clearTimer (id : nat) (w : World) : World :=
  on_sys (fun s => set_timers (delete id (timers s)) s) w.

(** [if (ref.current) clearInterval(ref.current)] *)
Definition clear_if_set (r : option nat) (w : World) : World :=
  match r with
  | Some id => clearTimer id w
  | None => w
  end.

(** [hudOverlayTimeoutRef.current = setTimeout(() => setShowHudOverlay(false), 5000)] *)
Definition armHudTimeout (w : World) : World :=
  let '(id, w) := setTimer HideHud w in
  on_refs (set_hudOverlayTimeoutRef (Some id)) w.

Definition nonempty (s : string) : bool := negb (String.eqb s "").

Definition type_is (cfg : VideoConfig) (t : string) : bool := String.eqb (video_type cfg) t.

Definition cl_type_is (cl : Closure) (t : string) : bool :=
  match cl_videoConfig cl with
  | Some cfg => type_is cfg t
  | None => false
  end.

Inductive YTState : Type :=
| YT_UNSTARTED | YT_ENDED | YT_PLAYING | YT_PAUSED | YT_BUFFERING | YT_CUED.

Inductive MediaTarget : Type := TLocal | TYouTube | TVimeo.

(** What can happen to the component and its page. *)
Inductive Event : Type :=
| ConfigLoaded (r : FetchOutcome)     (* the request of [loadVideoConfig] settles *)
| ManualPlay                          (* click on the play overlay *)
| PlayPromise (fulfilled : bool)      (* [video.play()] of [setupLocalVideo] settles *)
| VideoPlay                           (* [play] event of the <video> *)
| VideoEnded                          (* [ended] event of the <video> *)
| VideoPause                          (* [pause] event of the <video> *)
| YTApiLoaded                         (* the iframe API script has loaded *)
| YTReady                             (* [onReady] *)
| YTStateChange (s : YTState)         (* [onStateChange] *)
| MediaTime (t : MediaTarget) (q : Q) (* playback moves to position [q] *)
| Advance (dt : Z)                    (* [dt] milliseconds pass *)
| Fire (id : nat)                     (* timer [id] is due *)
| BeforeUnload                        (* [beforeunload] event of the window *)
| Unmount.                            (* React unmounts the component *)

Section Component.
Context `{JsonCodec}.

Definition do_saveProgress (videoId : string) (time : Q) (w : World) : World :=
  emit (ObsSave videoId time)
    (on_sys (fun s => set_storage (saveProgress (storage s) videoId time (now s)) s) w).

Definition do_clearProgress (videoId : string) (w : World) : World :=
  emit (ObsClear videoId)
    (on_sys (fun s => set_storage (clearProgress (storage s) videoId) s) w).

(** [sessionStorage.setItem('video_sound_authorized', 'true')]; the entry
    is never read by the component, only a failure matters. *)
Definition authorize_sound (w : World) : completion World :=
  if session_ok (sys w) then Normal w else Throw SecurityError.

(** [setButtonEnabled(true); onButtonEnable();] *)
Definition unlock (w : World) : World := emit ObsUnlock (setButtonEnabled true w).

(** *** Timer callbacks *)

(** The callback of [trackVimeoProgress]. *)
Definition poll_vimeo (cl : Closure) (startTime : Z) (w : World) : World :=
  match cl_videoConfig cl with
  | Some cfg =>
      let elapsedSeconds := (inject_Z (now (sys w) - startTime) / 1000)%Q in
      if q_ge elapsedSeconds (button_delay_seconds cfg) && negb (cl_buttonEnabled cl)
      then unlock w else w
  | None => w
  end.

(** The callback of [trackGoogleDriveProgress]. *)
Definition poll_google_drive (cl : Closure) (startTime : Z) (w : World) : World :=
  match cl_videoConfig cl with
  | Some cfg =>
      let elapsedSeconds := (inject_Z (now (sys w) - startTime) / 1000)%Q in
      if q_ge elapsedSeconds (button_delay_seconds cfg) && negb (cl_buttonEnabled cl)
      then unlock w else w
  | None => w
  end.

(** The callback of [trackLocalVideoProgress]. *)
Definition poll_local (cl : Closure) (w : World) : World :=
  match video_el (page w), cl_videoConfig cl with
  | Some video, Some cfg =>
      if q_ge (currentTime video) (button_delay_seconds cfg) && negb (cl_buttonEnabled cl)
      then unlock w else w
  | _, _ => w
  end.

(** The callback of [trackVideoProgress]. *)
Definition poll_youtube (cl : Closure) (w : World) : World :=
  match playerRef (refs w) with
  | Some player =>
      if yt_ready player then
        match cl_videoConfig cl with
        | Some cfg =>
            if q_ge (currentTime (yt_media player)) (button_delay_seconds cfg)
               && negb (cl_buttonEnabled cl)
            then unlock w else w
        | None => w
        end
      else w
  | None => w
  end.

(** The callback of [startSavingLocalProgress]. *)
Definition save_local (w : World) : World :=
  match video_el (page w) with
  | Some video =>
      if nonempty (currentVideoIdRef (refs w)) && q_gt (currentTime video) 0
      then do_saveProgress (currentVideoIdRef (refs w)) (currentTime video) w
      else w
  | None => w
  end.

(** The callback of [startSavingProgress]. *)
Definition save_youtube (w : World) : World :=
  match playerRef (refs w) with
  | Some player =>
      if yt_ready player && nonempty (currentVideoIdRef (refs w))
         && q_gt (currentTime (yt_media player)) 0
      then do_saveProgress (currentVideoIdRef (refs w)) (currentTime (yt_media player)) w
      else w
  | None => w
  end.

Definition run_task (t : Task) (w : World) : World :=
  match t with
  | HideHud => setShowHudOverlay false w
  | PollVimeo cl startTime => poll_vimeo cl startTime w
  | PollGoogleDrive cl startTime => poll_google_drive cl startTime w
  | PollLocal cl => poll_local cl w
  | PollYouTube cl => poll_youtube cl w
  | SaveLocal => save_local w
  | SaveYouTube => save_youtube w
  end.

(** *** Starting the timers *)

(** [if (progressIntervalRef.current) clearInterval(..);
    progressIntervalRef.current = setInterval(t, 300)] *)
Definition arm_poll (t : Task) (w : World) : World :=
  let w := clear_if_set (progressIntervalRef (refs w)) w in
  let '(id, w) := setTimer t w in
  on_refs (set_progressIntervalRef (Some id)) w.

(** [if (saveProgressIntervalRef.current) clearInterval(..);
    saveProgressIntervalRef.current = setInterval(t, 3000)] *)
Definition arm_save (t : Task) (w : World) : World :=
  let w := clear_if_set (saveProgressIntervalRef (refs w)) w in
  let '(id, w) := setTimer t w in
  on_refs (set_saveProgressIntervalRef (Some id)) w.

Definition trackVimeoProgress (cl : Closure) (w : World) : World :=
  if trackingStartedRef (refs w) then w
  else
    let w := on_refs (set_trackingStartedRef true) w in
    let startTime := now (sys w) in
    arm_poll (PollVimeo cl startTime) w.

Definition trackGoogleDriveProgress (cl : Closure) (w : World) : World :=
  if trackingStartedRef (refs w) then w
  else
    let w := on_refs (set_trackingStartedRef true) w in
    let startTime := now (sys w) in
    arm_poll (PollGoogleDrive cl startTime) w.

Definition trackLocalVideoProgress (cl : Closure) (w : World) : World :=
  if trackingStartedRef (refs w) then w
  else arm_poll (PollLocal cl) (on_refs (set_trackingStartedRef true) w).

Definition trackVideoProgress (cl : Closure) (w : World) : World :=
  if trackingStartedRef (refs w) then w
  else arm_poll (PollYouTube cl) (on_refs (set_trackingStartedRef true) w).

Definition startSavingLocalProgress (w : World) : World := arm_save SaveLocal w.

Definition startSavingProgress (w : World) : World := arm_save SaveYouTube w.
End Component.

Section Handlers.
Context `{JsonCodec}.

Definition with_video (f : Media -> Media) (w : World) : World :=
  on_page (fun p => set_video_el (f <$> video_el p) p) w.

Definition with_vimeo (f : Media -> Media) (w : World) : World :=
  on_page (fun p => set_vimeo_el (f <$> vimeo_el p) p) w.

Definition with_player (f : YTPlayer -> YTPlayer) (w : World) : World :=
  on_refs (fun r => set_playerRef (f <$> playerRef r) r) w.

Definition on_yt_media (f : Media -> Media) (p : YTPlayer) : YTPlayer :=
  mkYTPlayer (f (yt_media p)) (yt_ready p) (yt_render p).

(** A method of the player object, callable once it is attached. *)
Definition when_ready (f : Media -> Media) (p : YTPlayer) : YTPlayer :=
  if yt_ready p then on_yt_media f p else p.

(** *** Effects of the render *)

(** The effect on [videoConfig] that derives [currentVideoIdRef]. *)
Definition update_identity (cfg : VideoConfig) (w : World) : World :=
  let keep := currentVideoIdRef (refs w) in
  let id :=
    if type_is cfg "local" then
      match video_path cfg with
      | Some p => if nonempty p then p else video_url cfg
      | None => video_url cfg
      end
    else if type_is cfg "google_drive" then
      match getGoogleDriveFileId (video_url cfg) with
      | Some fileId => if nonempty fileId then fileId else keep
      | None => keep
      end
    else if type_is cfg "vimeo" then
      match getVimeoVideoId (video_url cfg) with
      | Some videoId => if nonempty videoId then videoId else keep
      | None => keep
      end
    else
      match getYouTubeVideoId (video_url cfg) with
      | Normal (Some videoId) => if nonempty videoId then videoId else keep
      | _ => keep
      end in
  on_refs (set_currentVideoIdRef id) w.

(** What the committed render shows: the [<video>] and the Vimeo iframe
    exist exactly under the conditions of the JSX. *)
Definition video_rendered (w : World) : bool :=
  mounted (page w) &&
  match videoConfig (react w) with
  | Some cfg =>
      type_is cfg "local"
      && match video_path cfg with Some p => nonempty p | None => false end
      && negb (showPlayOverlay (react w))
  | None => false
  end.

Definition vimeo_rendered (w : World) : bool :=
  mounted (page w) &&
  match videoConfig (react w) with
  | Some cfg => type_is cfg "vimeo"
  | None => false
  end.

Definition commit (w : World) : World :=
  let video := if video_rendered w then Some (default fresh_media (video_el (page w))) else None in
  let vimeo := if vimeo_rendered w then Some (default fresh_media (vimeo_el (page w))) else None in
  on_page (fun p => set_vimeo_el vimeo (set_video_el video p)) w.

(** *** Event handlers *)

Definition handleBeforeUnload (cl : Closure) (w : World) : World :=
  let id := currentVideoIdRef (refs w) in
  match (if cl_type_is cl "local" && nonempty id then video_el (page w) else None) with
  | Some video =>
      if q_gt (currentTime video) 0 then do_saveProgress id (currentTime video) w else w
  | None =>
      match playerRef (refs w) with
      | Some player =>
          if yt_ready player && nonempty id && q_gt (currentTime (yt_media player)) 0
          then do_saveProgress id (currentTime (yt_media player)) w
          else w
      | None => w
      end
  end.

(** The [then] callback of [setupLocalVideo]; an exception inside it is
    taken by the [catch] callback, which only logs to the console. *)
Definition localPlayStarted (cl : Closure) (w : World) : World :=
  match authorize_sound w with
  | Normal w => startSavingLocalProgress (trackLocalVideoProgress cl (armHudTimeout w))
  | Throw _ => w
  end.

(** [video.currentTime = v]: the attribute is a [double] of the DOM, and
    a value that is no finite number is a TypeError. *)
Definition set_currentTime (v : JsValue) (w : World) : completion World :=
  match to_number v with
  | Finite q => Normal (with_video (seek q) w)
  | _ => Throw TypeError
  end.

(** An exception of the assignment leaves the function, and with it the
    click handler, whose last statement this call is. *)
Definition setupLocalVideo (cl : Closure) (w : World) : World :=
  match video_el (page w), cl_videoConfig cl with
  | Some _, Some _ =>
      let savedTime := getSavedProgress (storage (sys w)) (currentVideoIdRef (refs w)) in
      match (if js_gt_zero savedTime then set_currentTime savedTime w else Normal w) with
      | Normal w =>
          let w := with_video (set_muted false) w in
          let w := with_video play w in
          on_page (set_play_promise (Some cl)) w
      | Throw _ => w
      end
  | _, _ => w
  end.

Definition setupGoogleDriveVideo (cl : Closure) (w : World) : World :=
  match cl_videoConfig cl with
  | Some _ => trackGoogleDriveProgress cl (armHudTimeout w)
  | None => w
  end.

(** The three [postMessage] calls ask the embedded player to play at
    full volume. An exception of [sessionStorage] leaves the handler. *)
Definition startVimeoManually (cl : Closure) (w : World) : World :=
  match vimeo_el (page w) with
  | Some _ =>
      let w := with_vimeo (fun m => set_muted false (play m)) w in
      match authorize_sound w with
      | Normal w => trackVimeoProgress cl (armHudTimeout w)
      | Throw _ => w
      end
  | None => w
  end.

(** [Math.floor(savedTime)] as the [start] parameter; a start that is
    no finite number is no position, and the player starts at 0. *)
Definition start_position (savedTime : JsValue) : Q :=
  match math_floor (to_number savedTime) with
  | Finite q => q
  | _ => 0%Q
  end.

Definition createYouTubePlayer (cl : Closure) (videoId : string) (w : World) : World :=
  let savedTime := getSavedProgress (storage (sys w)) videoId in
  let player := mkYTPlayer (mkMedia (start_position savedTime) Paused false) false cl in
  on_refs (set_playerRef (Some player)) w.

Definition loadYouTubePlayer (cl : Closure) (videoId : string) (w : World) : World :=
  if negb (window_YT (page w))
  then on_page (set_onYouTubeIframeAPIReady (Some (videoId, cl))) w
  else createYouTubePlayer cl videoId w.

Definition handleManualPlay (cl : Closure) (w : World) : World :=
  let w := setShowPlayOverlay false w in
  let w := if has_onPlayStart (page w) then emit ObsPlayStart w else w in
  if cl_type_is cl "local" then setupLocalVideo cl w
  else if cl_type_is cl "google_drive" then setupGoogleDriveVideo cl w
  else if cl_type_is cl "vimeo" then startVimeoManually cl w
  else
    let url := match cl_videoConfig cl with Some cfg => video_url cfg | None => "" end in
    match getYouTubeVideoId url with
    | Normal (Some videoId) =>
        if nonempty videoId then loadYouTubePlayer cl videoId w else w
    | _ => w
    end.

Definition handleLocalVideoPlay (cl : Closure) (w : World) : World :=
  match authorize_sound w with
  | Normal w => startSavingLocalProgress (trackLocalVideoProgress cl (armHudTimeout w))
  | Throw _ => w
  end.

Definition handleLocalVideoEnded (w : World) : World :=
  let w := do_clearProgress (currentVideoIdRef (refs w)) w in
  with_video (fun video => play (seek 0 video)) w.

Definition handleLocalVideoPause (w : World) : World :=
  let w :=
    match video_el (page w) with
    | Some video =>
        if nonempty (currentVideoIdRef (refs w))
        then do_saveProgress (currentVideoIdRef (refs w)) (currentTime video) w
        else w
    | None => w
    end in
  with_video play w.

(** [onReady] of the YouTube player. *)
Definition onReady (w : World) : World :=
  with_player (on_yt_media (fun m => set_muted false (play m))) w.

(** [onStateChange] of the YouTube player, with the render [cl] that
    created the player. *)
Definition onStateChange (cl : Closure) (s : YTState) (w : World) : World :=
  let playing :=
    match s with
    | YT_PLAYING =>
        let! w := authorize_sound w in
        Normal (startSavingProgress (trackVideoProgress cl (armHudTimeout w)))
    | _ => Normal w
    end in
  match playing with
  | Throw _ => w
  | Normal w =>
      let w :=
        match s with
        | YT_ENDED =>
            let w := do_clearProgress (currentVideoIdRef (refs w)) w in
            with_player (when_ready (fun m => play (seek 0 m))) w
        | _ => w
        end in
      match s with
      | YT_PAUSED =>
          let w :=
            match playerRef (refs w) with
            | Some player =>
                if yt_ready player && nonempty (currentVideoIdRef (refs w))
                then do_saveProgress (currentVideoIdRef (refs w))
                                     (currentTime (yt_media player)) w
                else w
            | None => w
            end in
          with_player (when_ready play) w
      | _ => w
      end
  end.

(** The cleanups of the three effects, run by React on unmount. *)
Definition cleanup (w : World) : World :=
  let w := clear_if_set (hudOverlayTimeoutRef (refs w)) w in
  let w := clear_if_set (saveProgressIntervalRef (refs w)) w in
  let w := on_page (set_beforeunload None) w in
  let w := clear_if_set (progressIntervalRef (refs w)) w in
  clear_if_set (saveProgressIntervalRef (refs w)) w.

Definition yt_state_of (s : YTState) (m : Media) : Media :=
  match s with
  | YT_PLAYING => set_play_state Playing m
  | YT_PAUSED => set_play_state Paused m
  | YT_ENDED => set_play_state Ended m
  | _ => m
  end.

(** *** One event

    A handler that the JSX attaches ([onClick], [onPlay], [onEnded],
    [onPause]) is the one of the latest render and sees the current state
    ([capture w]). A callback registered by hand (timer, promise, player
    event, [window.onYouTubeIframeAPIReady], [beforeunload]) stays the one
    of the render that registered it and carries that render's closure.
    For the events of a media element the browser first changes the
    element's state, then calls the handler. When a timer fires is up to
    the browser: [Fire] may come at any time while the timer is armed. *)

Definition handle (e : Event) (w : World) : World :=
  match e with
  | ConfigLoaded r =>
      match videoConfig (react w) with
      | None =>
          if mounted (page w) then
            let cfg := loadVideoConfig r in
            let w := update_identity cfg (setVideoConfig cfg w) in
            on_page (set_beforeunload (Some (capture w))) w
          else w
      | Some _ => w
      end
  | ManualPlay =>
      match videoConfig (react w) with
      | Some _ =>
          if mounted (page w) && showPlayOverlay (react w)
          then handleManualPlay (capture w) w else w
      | None => w
      end
  | PlayPromise fulfilled =>
      match play_promise (page w) with
      | Some cl =>
          let w := on_page (set_play_promise None) w in
          if fulfilled then localPlayStarted cl w else w
      | None => w
      end
  | VideoPlay =>
      match video_el (page w) with
      | Some _ => handleLocalVideoPlay (capture w) (with_video play w)
      | None => w
      end
  | VideoEnded =>
      match video_el (page w) with
      | Some _ => handleLocalVideoEnded (with_video (set_play_state Ended) w)
      | None => w
      end
  | VideoPause =>
      match video_el (page w) with
      | Some _ => handleLocalVideoPause (with_video (set_play_state Paused) w)
      | None => w
      end
  | YTApiLoaded =>
      let w := on_page (set_window_YT true) w in
      match onYouTubeIframeAPIReady (page w) with
      | Some (videoId, cl) =>
          createYouTubePlayer cl videoId (on_page (set_onYouTubeIframeAPIReady None) w)
      | None => w
      end
  | YTReady =>
      match playerRef (refs w) with
      | Some player =>
          onReady (with_player (fun p => mkYTPlayer (yt_media p) true (yt_render p)) w)
      | None => w
      end
  | YTStateChange s =>
      match playerRef (refs w) with
      | Some player =>
          onStateChange (yt_render player) s (with_player (on_yt_media (yt_state_of s)) w)
      | None => w
      end
  | MediaTime TLocal q => with_video (seek q) w
  | MediaTime TYouTube q => with_player (on_yt_media (seek q)) w
  | MediaTime TVimeo q => with_vimeo (seek q) w
  | Advance dt => on_sys (fun s => set_now (now s + Z.max 0 dt) s) w
  | Fire id =>
      match timers (sys w) !! id with
      | Some t => run_task t (if is_interval t then w else clearTimer id w)
      | None => w
      end
  | BeforeUnload =>
      match beforeunload (page w) with
      | Some cl => handleBeforeUnload cl w
      | None => w
      end
  | Unmount =>
      if mounted (page w) then on_page (set_mounted false) (cleanup w) else w
  end.

(** An event, then the render it causes. *)
Definition step (w : World) (e : Event) : World := commit (handle e w).

Definition run (w : World) (es : list Event) : World := fold_left step es w.

(** The component after its first render and effects: the request for
    the configuration is pending and the [beforeunload] listener of the
    first render is registered. *)
Definition mount (st : Storage) (session : bool) (clock : Z) (yt_loaded on_play_start : bool)
  : World :=
  mkWorld (mkReactState None false true true)
          (mkRefs None None None false None "")
          (mkPage true on_play_start None None yt_loaded None None
                  (Some (mkClosure None false)))
          (mkSys st session clock ∅ 1 []).
End Handlers.

(** ** Capture groups of a match *)

Section CaptureGroups.
Variable g : nat.

Definition has_group (m : captures) : Prop := is_Some (group m g).

(** A continuation that keeps group [g] once it is set. *)
Definition keeps (k : rcont) : Prop :=
  forall i s c m, has_group c -> k i s c = Some m -> has_group m.

(** A continuation whose every result has group [g]. *)
Definition yields (k : rcont) : Prop :=
  forall i s c m, k i s c = Some m -> has_group m.

(** The regex sets group [g] on every path through it. *)
Fixpoint binds (r : regex) : bool :=
  match r with
  | RGroup g' a => (g' =? g)%nat || binds a
  | RSeq a b => binds a || binds b
  | RAlt a b => binds a && binds b
  | _ => false
  end.
End CaptureGroups.

(** ** Timers and closures of a running component *)

Definition task_flag (t : Task) : bool :=
  match t with
  | PollVimeo cl _ | PollGoogleDrive cl _ | PollLocal cl | PollYouTube cl => cl_buttonEnabled cl
  | _ => false
  end.

(** A closure that saw [buttonEnabled] true was created after tracking
    had started. *)
Definition closure_ok (w : World) (cl : Closure) : Prop :=
  cl_buttonEnabled cl = true -> trackingStartedRef (refs w) = true.

Record Inv (w : World) : Prop := mkInv {
  (* every live interval is the one its ref holds *)
  inv_intervals : forall id t,
    timers (sys w) !! id = Some t -> is_interval t = true ->
    progressIntervalRef (refs w) = Some id \/ saveProgressIntervalRef (refs w) = Some id;
  (* a live poll was armed by the tracking latch, with the flag still false *)
  inv_polls : forall id t,
    timers (sys w) !! id = Some t -> is_poll t = true ->
    trackingStartedRef (refs w) = true /\ task_flag t = false;
  inv_state : closure_ok w (capture w);
  inv_promise : forall cl, play_promise (page w) = Some cl -> closure_ok w cl;
  inv_api_ready : forall videoId cl,
    onYouTubeIframeAPIReady (page w) = Some (videoId, cl) -> closure_ok w cl;
  inv_player : forall p, playerRef (refs w) = Some p -> closure_ok w (yt_render p)
}.

(** What the invariant reads of a world. *)
Definition view (w : World) :=
  (timers (sys w), progressIntervalRef (refs w), saveProgressIntervalRef (refs w),
   trackingStartedRef (refs w), buttonEnabled (react w), play_promise (page w),
   onYouTubeIframeAPIReady (page w), yt_render <$> playerRef (refs w)).

(** What happens to a component that is gone without anything of it
    being called from outside: time passes, timers that are still armed
    fire, the window is unloaded. A YouTube player, which the component
    never destroys, can report events after the unmount as well; those
    are not among these. *)
Definition later_event (e : Event) : bool :=
  match e with
  | Advance _ | Fire _ | BeforeUnload => true
  | _ => false
  end.

(** An unmounted component whose only armed timers are HUD timeouts and
    whose [beforeunload] listener is removed. *)
Record Quiet (w : World) : Prop := mkQuiet {
  quiet_unmounted : mounted (page w) = false;
  quiet_listener : beforeunload (page w) = None;
  quiet_timers : forall id t, timers (sys w) !! id = Some t -> t = HideHud
}.

(** ** Scenarios *)

Definition empty_storage : Storage := mkStorage ∅ false false.

Definition local_config : VideoConfig :=
  mkVideoConfig 1 "/videos/aula.mp4" "local" (Some "/videos/aula.mp4") 5.

Definition youtube_config : VideoConfig :=
  mkVideoConfig 2 "https://www.youtube.com/watch?v=dQw4w9WgXcQ" "youtube" None 5.

Definition served (cfg : VideoConfig) : Event :=
  ConfigLoaded (BodyParsed (DataObject (Some cfg))).

Fixpoint count_unlock (t : list Obs) : nat :=
  match t with
  | [] => 0
  | ObsUnlock :: rest => S (count_unlock rest)
  | _ :: rest => count_unlock rest
  end.

(** How often [onButtonEnable] has been called. *)
Definition unlock_calls (w : World) : nat := count_unlock (trace (sys w)).

Definition state_of (m : option Media) : option PlayState := play_state <$> m.

(** The default Vimeo configuration, the click on the overlay, then the
    poll timer (id 2; the HUD timeout has id 1) at 180.0, 180.3 and
    180.6 seconds. *)
Definition vimeo_three_ticks : list Event :=
  [ ConfigLoaded FetchRejected; ManualPlay;
    Advance 180000; Fire 2; Advance 300; Fire 2; Advance 300; Fire 2 ].

Definition local_session : list Event :=
  [served local_config; ManualPlay; VideoPlay; MediaTime TLocal 3].

Definition youtube_session : list Event :=
  [served youtube_config; ManualPlay; YTApiLoaded; YTReady;
   YTStateChange YT_PLAYING; MediaTime TYouTube 3].

(** A YouTube session in which the player reports PLAYING, BUFFERING and
    PLAYING again within five seconds, and is then unmounted. Timer 1 is
    the HUD timeout of the first PLAYING, timer 4 that of the second. *)
Definition rebuffering_session : list Event :=
  [ served youtube_config; ManualPlay; YTApiLoaded; YTReady;
    YTStateChange YT_PLAYING; Advance 1000; YTStateChange YT_BUFFERING;
    Advance 1000; YTStateChange YT_PLAYING; Advance 1000; Unmount ].

(** ** Embed URLs *)

(** [`https://drive.google.com/file/d/${fileId}/preview`] *)
Definition getGoogleDriveEmbedUrl (url : string) : option string :=
  match getGoogleDriveFileId url with
  | Some fileId =>
      if nonempty fileId
      then Some ("https://drive.google.com/file/d/" +:+ fileId +:+ "/preview")
      else None
  | None => None
  end.

Definition vimeo_embed_params : string :=
  "?muted=1&loop=1&autopause=0&controls=0&title=0&byline=0&portrait=0&playsinline=1&api=1".

(** [`https://player.vimeo.com/video/${videoId}?muted=1&loop=1&..`] *)
Definition getVimeoEmbedUrl (url : string) : option string :=
  match getVimeoVideoId url with
  | Some videoId =>
      if nonempty videoId
      then Some ("https://player.vimeo.com/video/" +:+ videoId +:+ vimeo_embed_params)
      else None
  | None => None
  end.

(** ** What a pattern matches

    [matches r i text]: the pattern [r] can match [text] when it starts at
    index [i] of the input. *)

Inductive matches : regex -> nat -> list ascii -> Prop :=
| matches_eps i : matches REps i []
| matches_bol : matches RBol 0 []
| matches_class p x i : p x = true -> matches (RClass p) i [x]
| matches_seq a b i t1 t2 :
    matches a i t1 -> matches b (i + length t1) t2 -> matches (RSeq a b) i (t1 ++ t2)
| matches_alt_l a b i t : matches a i t -> matches (RAlt a b) i t
| matches_alt_r a b i t : matches b i t -> matches (RAlt a b) i t
| matches_opt_none a i : matches (ROpt a) i []
| matches_opt_some a i t : matches a i t -> matches (ROpt a) i t
| matches_star_nil a i : matches (RStar a) i []
| matches_star_cons a i t1 t2 :
    matches a i t1 -> matches (RStar a) (i + length t1) t2 -> matches (RStar a) i (t1 ++ t2)
| matches_group g a i t : matches a i t -> matches (RGroup g a) i t.

(** Every group of [r] captures only texts that satisfy [G]. *)
Fixpoint groups_ok (G : nat -> list ascii -> Prop) (r : regex) : Prop :=
  match r with
  | RGroup g a => (forall i t, matches a i t -> G g t) /\ groups_ok G a
  | RSeq a b | RAlt a b => groups_ok G a /\ groups_ok G b
  | RStar a | ROpt a => groups_ok G a
  | _ => True
  end.

Definition captures_ok (G : nat -> list ascii -> Prop) (c : captures) : Prop :=
  Forall (fun e => G e.1 e.2) c.

(** ** Flags of a session *)

(** From [w] to [w'] no latch has been released and the configuration,
    once loaded, has stayed. *)
Definition latched (w w' : World) : Prop :=
  (buttonEnabled (react w) = true -> buttonEnabled (react w') = true)
  /\ (trackingStartedRef (refs w) = true -> trackingStartedRef (refs w') = true)
  /\ (showHudOverlay (react w') = true -> showHudOverlay (react w) = true)
  /\ (showPlayOverlay (react w') = true -> showPlayOverlay (react w) = true)
  /\ (forall cfg, videoConfig (react w) = Some cfg -> videoConfig (react w') = Some cfg).

(** The [<video>] exists only once the play overlay is gone, and no
    [play()] promise of [setupLocalVideo] is pending. *)
Definition click_finds_no_video (w : World) : Prop :=
  play_promise (page w) = None
  /\ (forall m, video_el (page w) = Some m -> showPlayOverlay (react w) = false).

(** Each live poll is the timer [progressIntervalRef] holds, each live
    saver the one [saveProgressIntervalRef] holds. *)
Definition timers_by_ref (w : World) : Prop :=
  forall id t, timers (sys w) !! id = Some t ->
    (is_poll t = true -> progressIntervalRef (refs w) = Some id)
    /\ (is_interval t = true -> is_poll t = false ->
        saveProgressIntervalRef (refs w) = Some id).

Definition is_store_obs (o : Obs) : bool :=
  match o with
  | ObsSave _ _ | ObsClear _ => true
  | _ => false
  end.

(** The component runs a backend without a position: Vimeo or Drive. *)
Definition embed_only (w : World) : bool :=
  match videoConfig (react w) with
  | Some cfg => type_is cfg "vimeo" || type_is cfg "google_drive"
  | None => true
  end.

(** What holds of a session while it is [embed_only]: no media object,
    no pending callback that could create one, and an untouched store. *)
Definition store_untouched (st : Storage) (w : World) : Prop :=
  video_el (page w) = None
  /\ playerRef (refs w) = None
  /\ onYouTubeIframeAPIReady (page w) = None
  /\ play_promise (page w) = None
  /\ storage (sys w) = st
  /\ forallb (fun o => negb (is_store_obs o)) (trace (sys w)) = true.

(** The closure of a poll callback. *)
Definition task_closure (t : Task) : option Closure :=
  match t with
  | PollVimeo cl _ | PollGoogleDrive cl _ | PollLocal cl | PollYouTube cl => Some cl
  | _ => None
  end.

(** The time a poll callback compares with the threshold, when its guards
    let it compare at all. *)
Definition observed (t : Task) (w : World) : option Q :=
  match t with
  | PollVimeo _ startTime | PollGoogleDrive _ startTime =>
      Some (inject_Z (now (sys w) - startTime) / 1000)%Q
  | PollLocal _ => currentTime <$> video_el (page w)
  | PollYouTube _ =>
      match playerRef (refs w) with
      | Some player => if yt_ready player then Some (currentTime (yt_media player)) else None
      | None => None
      end
  | _ => None
  end.

(** A closure that carries the configuration of the session. *)
Definition closure_current (w : World) (cl : Closure) : Prop :=
  cl_videoConfig cl = videoConfig (react w) /\ videoConfig (react w) <> None.

Record ConfigInv (w : World) : Prop := mkConfigInv {
  cfg_polls : forall id t cl,
    timers (sys w) !! id = Some t -> task_closure t = Some cl -> closure_current w cl;
  cfg_promise : forall cl, play_promise (page w) = Some cl -> closure_current w cl;
  cfg_api_ready : forall videoId cl,
    onYouTubeIframeAPIReady (page w) = Some (videoId, cl) -> closure_current w cl;
  cfg_player : forall p, playerRef (refs w) = Some p -> closure_current w (yt_render p);
  cfg_video : forall m, video_el (page w) = Some m -> videoConfig (react w) <> None
}.

(** ** The record a session works on *)

Definition obs_key (o : Obs) : option string :=
  match o with
  | ObsSave id _ | ObsClear id => Some id
  | _ => None
  end.

(** Every store operation of the trace [l] has the identity [x]. *)
Definition keys_are (x : string) (l : list Obs) : Prop :=
  Forall (fun o => forall id, obs_key o = Some id -> id = x) l.

Definition saves_nonempty (l : list Obs) : Prop :=
  Forall (fun o => forall id q, o = ObsSave id q -> nonempty id = true) l.

(** What a session that started on the storage [st] keeps true: its
    store operations carry its own identity, its saves a non-empty one,
    the entries under other keys are those of [st], and before the
    configuration arrives nothing has happened to the store at all. *)
Record OwnKeys (st : Storage) (w : World) : Prop := mkOwnKeys {
  own_trace : keys_are (currentVideoIdRef (refs w)) (trace (sys w));
  own_saves : saves_nonempty (trace (sys w));
  own_store : forall k, k <> progress_key (currentVideoIdRef (refs w)) ->
    entries (storage (sys w)) !! k = entries st !! k;
  own_idle : videoConfig (react w) = None ->
    storage (sys w) = st /\ forallb (fun o => negb (is_store_obs o)) (trace (sys w)) = true
}.

(** ** The identity of a YouTube session *)



(** Group [g] holds only characters of the class [p], and at least one of
    them when [ne] is set; the other groups are free. *)
Definition class_group (g : nat) (p : ascii -> bool) (ne : bool) (g' : nat) (t : list ascii)
  : Prop :=
  g' = g -> forallb p t = true /\ (ne = true -> t <> []).

Definition drive_class (c : ascii) : bool := is_w c || Ascii.eqb c "-"%char.

Definition youtube_class (c : ascii) : bool :=
  negb (existsb (Ascii.eqb c) ["#"; "&"; "?"]%char).

(** The string is made of characters of the class. *)
Definition all_in (p : ascii -> bool) (s : string) : bool :=
  forallb p (list_ascii_of_string s).

(** * Properties *)

(** ** The platform model at work *)

Example mini_json_record :
  MiniJSON.stringify (progress_record (85 # 2) 1700000000000)
  = let q := String MiniJSON.dquote "" in
    "{" +:+ q +:+ "time" +:+ q +:+ ":42.5," +:+ q +:+ "timestamp" +:+ q +:+ ":1700000000000}".
Proof. vm_compute. reflexivity. Qed.

Example mini_json_roundtrip :
  MiniJSON.parse (MiniJSON.stringify (progress_record (85 # 2) 1700000000000))
  = Some (progress_record (85 # 2) 1700000000000).
Proof. vm_compute. reflexivity. Qed.

Example mini_json_garbage : MiniJSON.parse "{not json" = None.
Proof. vm_compute. reflexivity. Qed.

Example to_number_of_texts :
  to_number (JsStr "12.5") = Finite (25 # 2)
  /\ to_number (JsStr " 7 ") = Finite 7
  /\ to_number (JsStr "1.5e-2") = Finite (3 # 200)
  /\ to_number (JsStr "0x1F") = Finite 31
  /\ to_number (JsStr "") = Finite 0
  /\ to_number (JsStr "-Infinity") = Infinite true
  /\ to_number (JsStr "12px") = NaN
  /\ to_number (JsStr "garbage") = NaN.
Proof. vm_compute. repeat split. Qed.

Example to_number_of_arrays :
  to_number (JsArr [JsNum 42]) = Finite 42
  /\ to_number (JsArr [JsArr [JsStr "12.5"]]) = Finite (25 # 2)
  /\ to_number (JsArr []) = Finite 0
  /\ to_number (JsArr [JsNum 1; JsNum 2]) = NaN
  /\ to_number (JsObj [("time", JsNum 1)]) = NaN.
Proof. vm_compute. repeat split. Qed.

Example start_position_of_records :
  start_position (JsStr "12.5") = 12%Q
  /\ start_position (JsArr [JsNum 42]) = 42%Q
  /\ start_position (JsNum (427 # 10)) = 42%Q
  /\ start_position (JsStr "garbage") = 0%Q
  /\ start_position (JsStr "Infinity") = 0%Q.
Proof. vm_compute. repeat split. Qed.

Example youtube_watch :
  getYouTubeVideoId "https://www.youtube.com/watch?v=dQw4w9WgXcQ&t=42"
  = Normal (Some "dQw4w9WgXcQ").
Proof. vm_compute. reflexivity. Qed.

Example youtube_short : getYouTubeVideoId "https://youtu.be/dQw4w9WgXcQ" = Normal (Some "dQw4w9WgXcQ").
Proof. vm_compute. reflexivity. Qed.

Example youtube_wrong_length : getYouTubeVideoId "https://youtu.be/tooshort" = Normal None.
Proof. vm_compute. reflexivity. Qed.

Example youtube_no_match : getYouTubeVideoId "https://vimeo.com/1142286537" = Normal None.
Proof. vm_compute. reflexivity. Qed.

Example vimeo_default : getVimeoVideoId "https://vimeo.com/1142286537" = Some "1142286537".
Proof. vm_compute. reflexivity. Qed.

Example vimeo_player_url : getVimeoVideoId "https://player.vimeo.com/video/76979871?h=1" = Some "76979871".
Proof. vm_compute. reflexivity. Qed.

Example drive_file :
  getGoogleDriveFileId "https://drive.google.com/file/d/1AbC_d-9/view" = Some "1AbC_d-9".
Proof. vm_compute. reflexivity. Qed.


(** ** Progress Store *)

Section ProgressStoreFacts.
Context `{JsonCodec}.

Lemma progress_key_inj (idA idB : string) :
  progress_key idA = progress_key idB -> idA = idB.
Proof. unfold progress_key, STORAGE_KEY. cbn. intros E. by simplify_eq. Qed.

Lemma getSavedProgress_throw (st : Storage) (videoId : string) (e : JsError) :
  getSavedProgress_try st videoId = Throw e -> getSavedProgress st videoId = JsNum 0.
Proof. unfold getSavedProgress. by intros ->. Qed.

Lemma getSavedProgress_denied (st : Storage) (videoId : string) :
  denied st = true -> getSavedProgress st videoId = JsNum 0.
Proof.
  intros D. apply (getSavedProgress_throw _ _ SecurityError).
  unfold getSavedProgress_try, getItem. by rewrite D.
Qed.

Lemma getSavedProgress_absent (st : Storage) (videoId : string) :
  entries st !! progress_key videoId = None -> getSavedProgress st videoId = JsNum 0.
Proof.
  intros A. unfold getSavedProgress, getSavedProgress_try, getItem.
  destruct (denied st); cbn; [done|]. by rewrite A.
Qed.

Lemma getSavedProgress_unparseable (st : Storage) (videoId text : string) :
  entries st !! progress_key videoId = Some text ->
  JSON_parse text = None ->
  getSavedProgress st videoId = JsNum 0.
Proof.
  intros A P. unfold getSavedProgress, getSavedProgress_try, getItem, parse_json.
  destruct (denied st); cbn; [done|]. rewrite A.
  destruct (negb (text =? "")%string); [|done]. by rewrite P.
Qed.

Lemma getSavedProgress_not_object (st : Storage) (videoId text : string) (data : JsValue) :
  entries st !! progress_key videoId = Some text ->
  JSON_parse text = Some data ->
  (forall fields, data <> JsObj fields) ->
  getSavedProgress st videoId = JsNum 0.
Proof.
  intros A P N. unfold getSavedProgress, getSavedProgress_try, getItem, parse_json.
  destruct (denied st); cbn; [done|]. rewrite A.
  destruct (negb (text =? "")%string); [|done]. rewrite P. cbn.
  destruct data; try done. by destruct (N fields).
Qed.

Lemma getSavedProgress_falsy_time (st : Storage) (videoId text : string)
    (fields : list (string * JsValue)) :
  entries st !! progress_key videoId = Some text ->
  JSON_parse text = Some (JsObj fields) ->
  truthy (assoc_get fields "time") = false ->
  getSavedProgress st videoId = JsNum 0.
Proof.
  intros A P T. unfold getSavedProgress, getSavedProgress_try, getItem, parse_json.
  destruct (denied st); cbn; [done|]. rewrite A.
  destruct (negb (text =? "")%string); [|done]. rewrite P. cbn.
  unfold js_or. by rewrite T.
Qed.

(** What a readable record yields: its [time] field, or 0 when that is
    falsy. No other field is looked at. *)
Lemma getSavedProgress_parsed (st : Storage) (videoId text : string) (fields : list (string * JsValue)) :
  denied st = false ->
  entries st !! progress_key videoId = Some text ->
  JSON_parse text = Some (JsObj fields) ->
  getSavedProgress st videoId = js_or (assoc_get fields "time") (JsNum 0).
Proof.
  intros D A P. unfold getSavedProgress, getSavedProgress_try, getItem, parse_json.
  rewrite D. cbn. rewrite A.
  destruct (String.eqb_spec text "") as [->|_]; cbn.
  - rewrite JSON_parse_empty in P. discriminate.
  - by rewrite P.
Qed.

Lemma saveProgress_throw (st : Storage) (videoId : string) (time : Q) (clock : Z) (e : JsError) :
  saveProgress_try st videoId time clock = Throw e -> saveProgress st videoId time clock = st.
Proof. unfold saveProgress. by intros ->. Qed.

Lemma clearProgress_throw (st : Storage) (videoId : string) (e : JsError) :
  clearProgress_try st videoId = Throw e -> clearProgress st videoId = st.
Proof. unfold clearProgress. by intros ->. Qed.

Lemma saveProgress_entries (st : Storage) (videoId : string) (time : Q) (clock : Z) :
  denied st = false -> quota_full st = false ->
  saveProgress st videoId time clock
  = mkStorage (<[progress_key videoId := JSON_stringify (progress_record time clock)]> (entries st))
              false false.
Proof.
  intros D F. unfold saveProgress, saveProgress_try, setItem. by rewrite D, F.
Qed.

Lemma js_or_num (v : Q) : exists q, js_or (JsNum v) (JsNum 0) = JsNum q /\ (q == v)%Q.
Proof.
  unfold js_or. cbn. destruct (Qeq_bool v 0) eqn:E; cbn.
  - exists 0%Q. split; [done|]. symmetry. by apply Qeq_bool_iff.
  - by exists v.
Qed.

Lemma save_then_get (st : Storage) (videoId : string) (v : Q) (clock : Z) :
  denied st = false -> quota_full st = false ->
  JSON_parse (JSON_stringify (progress_record v clock)) = Some (progress_record v clock) ->
  exists q, getSavedProgress (saveProgress st videoId v clock) videoId = JsNum q /\ (q == v)%Q.
Proof.
  intros D F R. rewrite saveProgress_entries by done.
  set (text := JSON_stringify (progress_record v clock)) in *.
  rewrite (getSavedProgress_parsed
             (mkStorage (<[progress_key videoId := text]> (entries st)) false false)
             videoId text _ eq_refl (lookup_insert_eq _ _ _) R).
  apply js_or_num.
Qed.

Lemma clear_then_get (st : Storage) (videoId : string) :
  getSavedProgress (clearProgress st videoId) videoId = JsNum 0.
Proof.
  unfold clearProgress, clearProgress_try, removeItem.
  destruct (denied st) eqn:D; cbn.
  - by apply getSavedProgress_denied.
  - apply getSavedProgress_absent. cbn. apply lookup_delete_eq.
Qed.

Lemma getSavedProgress_ext (st st' : Storage) (videoId : string) :
  denied st' = denied st ->
  entries st' !! progress_key videoId = entries st !! progress_key videoId ->
  getSavedProgress st' videoId = getSavedProgress st videoId.
Proof.
  intros D E. unfold getSavedProgress, getSavedProgress_try, getItem. by rewrite D, E.
Qed.

Lemma save_other_identity (st : Storage) (idA idB : string) (v : Q) (clock : Z) :
  idA <> idB ->
  getSavedProgress (saveProgress st idA v clock) idB = getSavedProgress st idB.
Proof.
  intros N. unfold saveProgress, saveProgress_try, setItem.
  destruct (denied st) eqn:D; cbn; [done|].
  destruct (quota_full st) eqn:F; cbn; [done|].
  apply getSavedProgress_ext; cbn; [done|].
  apply lookup_insert_ne. intros E. by apply N, progress_key_inj.
Qed.
End ProgressStoreFacts.

Lemma on_sys_same_storage (w : World) :
  on_sys (fun s => set_storage (storage s) s) w = w.
Proof. by destruct w as [? ? ? []]. Qed.

Lemma do_saveProgress_throw `{JsonCodec} (videoId : string) (time : Q) (w : World) (e : JsError) :
  saveProgress_try (storage (sys w)) videoId time (now (sys w)) = Throw e ->
  do_saveProgress videoId time w = emit (ObsSave videoId time) w.
Proof.
  intros T. unfold do_saveProgress. f_equal.
  rewrite <- (on_sys_same_storage w) at 2. unfold on_sys. f_equal.
  by rewrite (saveProgress_throw _ _ _ _ _ T).
Qed.

(** X15. No operation of the Progress Store lets an exception of the
    storage escape. [getSavedProgress] yields 0 whenever its [try] block
    throws, in particular when the storage is inaccessible, and also when
    the entry is absent, is not JSON, is JSON for something other than an
    object, or is an object without a truthy [time]. [saveProgress] and
    [clearProgress] leave the store as it was when [setItem] or
    [removeItem] throws, and the caller of a failed [saveProgress] goes on
    exactly as if the call had only been recorded: component state, refs,
    page, timers and clock are untouched. *)
Theorem progress_store_swallows_errors `{JsonCodec}
    (st : Storage) (videoId : string) (time : Q) (clock : Z) :
  (forall e, getSavedProgress_try st videoId = Throw e ->
             getSavedProgress st videoId = JsNum 0)
  /\ (denied st = true -> getSavedProgress st videoId = JsNum 0)
  /\ (entries st !! progress_key videoId = None -> getSavedProgress st videoId = JsNum 0)
  /\ (forall text, entries st !! progress_key videoId = Some text ->
                   JSON_parse text = None ->
                   getSavedProgress st videoId = JsNum 0)
  /\ (forall text data, entries st !! progress_key videoId = Some text ->
                        JSON_parse text = Some data ->
                        (forall fields, data <> JsObj fields) ->
                        getSavedProgress st videoId = JsNum 0)
  /\ (forall text fields, entries st !! progress_key videoId = Some text ->
                          JSON_parse text = Some (JsObj fields) ->
                          truthy (assoc_get fields "time") = false ->
                          getSavedProgress st videoId = JsNum 0)
  /\ (forall e, saveProgress_try st videoId time clock = Throw e ->
                saveProgress st videoId time clock = st)
  /\ (forall e, clearProgress_try st videoId = Throw e -> clearProgress st videoId = st)
  /\ (forall w e, saveProgress_try (storage (sys w)) videoId time (now (sys w)) = Throw e ->
                  do_saveProgress videoId time w = emit (ObsSave videoId time) w).
Proof.
  repeat split.
  - apply getSavedProgress_throw.
  - apply getSavedProgress_denied.
  - apply getSavedProgress_absent.
  - apply getSavedProgress_unparseable.
  - apply getSavedProgress_not_object.
  - apply getSavedProgress_falsy_time.
  - apply saveProgress_throw.
  - apply clearProgress_throw.
  - intros w e. apply do_saveProgress_throw.
Qed.

(** A store over quota that holds a damaged entry: reading gives 0 and
    writing changes nothing. *)
Lemma progress_store_swallows_errors_witness :
  let st := mkStorage {[ progress_key "abc" := "{not json" ]} false true in
  getSavedProgress st "abc" = JsNum 0 /\ saveProgress st "abc" 42 1000 = st.
Proof.
  intros st.
  destruct (progress_store_swallows_errors st "abc" 42 1000)
    as (_ & _ & _ & Hu & _ & _ & Hs & _).
  split.
  - apply (Hu "{not json"); vm_compute; reflexivity.
  - apply (Hs QuotaExceededError). reflexivity.
Defined.

(** C6. [getSavedProgress] does not give 0 for every damaged record. When
    the entry is JSON for an object whose [time] is truthy, [data.time || 0]
    is that value whatever it is, and the function, declared to return a
    [number], returns it unchanged: a text that is no number, a negative
    number, an array. In particular the result is then not 0. *)
Theorem truthy_time_is_returned_unchanged `{JsonCodec}
    (st : Storage) (videoId text : string) (fields : list (string * JsValue)) :
  denied st = false ->
  entries st !! progress_key videoId = Some text ->
  JSON_parse text = Some (JsObj fields) ->
  truthy (assoc_get fields "time") = true ->
  getSavedProgress st videoId = assoc_get fields "time"
  /\ truthy (getSavedProgress st videoId) = true.
Proof.
  intros D A P T.
  rewrite (getSavedProgress_parsed st videoId text fields D A P).
  unfold js_or. by rewrite T.
Qed.

(** The entry [{"time":"garbage"}], shown here with its quotes written
    out: the text [garbage] is read back, not 0. *)
Lemma truthy_time_is_returned_unchanged_witness :
  let q := String MiniJSON.dquote "" in
  let text := "{" +:+ q +:+ "time" +:+ q +:+ ":" +:+ q +:+ "garbage" +:+ q +:+ "}" in
  let st := mkStorage {[ progress_key "abc" := text ]} false false in
  getSavedProgress st "abc" = JsStr "garbage".
Proof.
  intros q text st.
  assert (P : JSON_parse text = Some (JsObj [("time", JsStr "garbage")]))
    by (vm_compute; reflexivity).
  assert (A : entries st !! progress_key "abc" = Some text) by (vm_compute; reflexivity).
  exact (proj1 (truthy_time_is_returned_unchanged st "abc" text _ eq_refl A P eq_refl)).
Defined.

(** C7. On a storage that accepts the write, and for a record that JSON
    reads back as written, [getSavedProgress] after [saveProgress] returns
    the saved number; after [clearProgress] it returns 0; and a save under
    one identity does not change what is read under another, since the
    keys [video_progress_<identity>] of distinct identities differ. *)
Theorem progress_roundtrip_and_namespacing `{JsonCodec}
    (st : Storage) (idA idB : string) (v : Q) (clock : Z) :
  denied st = false ->
  quota_full st = false ->
  JSON_parse (JSON_stringify (progress_record v clock)) = Some (progress_record v clock) ->
  (exists q, getSavedProgress (saveProgress st idA v clock) idA = JsNum q /\ (q == v)%Q)
  /\ getSavedProgress (clearProgress st idA) idA = JsNum 0
  /\ progress_key idA = ("video_progress_" +:+ idA)
  /\ (idA <> idB ->
      progress_key idA <> progress_key idB
      /\ getSavedProgress (saveProgress st idA v clock) idB = getSavedProgress st idB).
Proof.
  intros D F R. repeat split.
  - by apply save_then_get.
  - apply clear_then_get.
  - intros E. by apply H0, progress_key_inj.
  - by apply save_other_identity.
Qed.

Lemma progress_roundtrip_and_namespacing_witness :
  let st := mkStorage {[ progress_key "idB" := JSON_stringify (progress_record 7 5) ]}
                      false false in
  (exists q, getSavedProgress (saveProgress st "idA" 42 1000) "idA" = JsNum q /\ (q == 42)%Q)
  /\ getSavedProgress (saveProgress st "idA" 42 1000) "idB" = JsNum 7.
Proof.
  intros st.
  assert (R : JSON_parse (JSON_stringify (progress_record 42 1000))
              = Some (progress_record 42 1000)) by (vm_compute; reflexivity).
  destruct (progress_roundtrip_and_namespacing st "idA" "idB" 42 1000
              eq_refl eq_refl R) as (Hget & _ & _ & Hother).
  split; [exact Hget|].
  destruct Hother as [_ ->]; [discriminate|]. vm_compute. reflexivity.
Defined.

(** C10. [saveProgress] stores the wall-clock timestamp next to the time,
    but what [getSavedProgress] returns is determined by the [time] field
    alone: records written at different moments read back the same, and a
    component mounted at any later moment reads the saved time. *)
Theorem saved_progress_never_expires `{JsonCodec}
    (st : Storage) (videoId : string) (v : Q) (saved_at : Z) :
  denied st = false ->
  quota_full st = false ->
  JSON_parse (JSON_stringify (progress_record v saved_at)) = Some (progress_record v saved_at) ->
  let st' := saveProgress st videoId v saved_at in
  entries st' !! progress_key videoId
  = Some (JSON_stringify (JsObj [("time", JsNum v); ("timestamp", JsNum (inject_Z saved_at))]))
  /\ (forall other : Z,
        JSON_parse (JSON_stringify (progress_record v other)) = Some (progress_record v other) ->
        getSavedProgress (saveProgress st videoId v other) videoId
        = getSavedProgress st' videoId)
  /\ (forall (stored : Storage) (text : string) (time stamp : JsValue),
        denied stored = false ->
        entries stored !! progress_key videoId = Some text ->
        JSON_parse text = Some (JsObj [("time", time); ("timestamp", stamp)]) ->
        getSavedProgress stored videoId = js_or time (JsNum 0))
  /\ (forall (loaded_at : Z) (session yt ops : bool),
        exists q, getSavedProgress (storage (sys (mount st' session loaded_at yt ops))) videoId
                  = JsNum q /\ (q == v)%Q).
Proof.
  intros D F R st'. subst st'. repeat split.
  - rewrite saveProgress_entries by done. cbn. apply lookup_insert_eq.
  - intros other R'. rewrite !saveProgress_entries by done.
    set (t1 := JSON_stringify (progress_record v other)) in *.
    set (t2 := JSON_stringify (progress_record v saved_at)) in *.
    rewrite (getSavedProgress_parsed
               (mkStorage (<[progress_key videoId := t1]> (entries st)) false false)
               videoId t1 _ eq_refl (lookup_insert_eq _ _ _) R').
    by rewrite (getSavedProgress_parsed
               (mkStorage (<[progress_key videoId := t2]> (entries st)) false false)
               videoId t2 _ eq_refl (lookup_insert_eq _ _ _) R).
  - intros stored text time stamp Ds E P.
    by rewrite (getSavedProgress_parsed stored videoId text _ Ds E P).
  - intros loaded_at session yt ops. cbn. by apply save_then_get.
Qed.

(** Progress saved in 2023 is read back by a component mounted a year
    later. *)
Lemma saved_progress_never_expires_witness :
  let st := mkStorage ∅ false false in
  exists q,
    getSavedProgress
      (storage (sys (mount (saveProgress st "76979871" (85 # 2) 1700000000000)
                           true 1731536000000 true false))) "76979871"
    = JsNum q /\ (q == 85 # 2)%Q.
Proof.
  intros st.
  destruct (saved_progress_never_expires st "76979871" (85 # 2) 1700000000000
              eq_refl eq_refl) as (_ & _ & _ & Hload).
  - vm_compute. reflexivity.
  - exact (Hload 1731536000000 true true false).
Defined.

(** ** Identity extractors *)

Section Captures.
Variable g : nat.

Lemma has_group_cons (g' : nat) (s : list ascii) (c : captures) :
  (has_group g) c -> (has_group g) ((g', s) :: c).
Proof. unfold has_group. cbn. by destruct (g' =? g)%nat. Qed.

Lemma has_group_here (s : list ascii) (c : captures) : (has_group g) ((g, s) :: c).
Proof. unfold has_group. cbn. by rewrite Nat.eqb_refl. Qed.

(** Both properties pass from a continuation to the matcher in front of
    it; [P] is [(has_group g)] for [(keeps g)] and [True] for [(yields g)]. *)
Lemma rmatch_transfers (P : captures -> Prop) (r : regex) :
  (forall g' s c, P c -> P ((g', s) :: c)) ->
  forall k, (forall i s c m, P c -> k i s c = Some m -> (has_group g) m) ->
  forall i s c m, P c -> rmatch r i s c k = Some m -> (has_group g) m.
Proof.
  intros Pcons. induction r as [| |p|a IHa b IHb|a IHa b IHb|a IHa|a IHa|g' a IHa];
    intros k Hk i s c m Hc; cbn.
  - by apply Hk.
  - destruct (i =? 0)%nat; [by apply Hk|done].
  - destruct s as [|x s']; [done|]. destruct (p x); [by apply Hk|done].
  - apply IHa; [|done]. intros i' s' c' m' Hc'. by apply IHb.
  - destruct (rmatch a i s c k) eqn:E.
    + intros [= <-]. by eapply IHa.
    + by apply IHb.
  - generalize (length s). intros n. revert i s c m Hc.
    induction n as [|n IHn]; intros i s c m Hc; [by apply Hk|].
    destruct (rmatch a i s c _) eqn:E.
    + intros [= <-]. eapply IHa; [|exact Hc|exact E].
      intros i' s' c' m' Hc'. cbn. destruct (i' =? i)%nat; [done|]. by apply IHn.
    + by apply Hk.
  - destruct (rmatch a i s c k) eqn:E.
    + intros [= <-]. by eapply IHa.
    + by apply Hk.
  - apply IHa; [|done]. intros i' s' c' m' Hc'. apply Hk. by apply Pcons.
Qed.

Lemma rmatch_keeps (r : regex) (k : rcont) :
  (keeps g) k -> (keeps g) (fun i s c => rmatch r i s c k).
Proof.
  intros Hk i s c m. apply (rmatch_transfers (has_group g)); [|done].
  intros. by apply has_group_cons.
Qed.

Lemma rmatch_yields (r : regex) (k : rcont) :
  (yields g) k -> (yields g) (fun i s c => rmatch r i s c k).
Proof.
  intros Hk i s c m. apply (rmatch_transfers (fun _ => True)); [done| |done].
  intros i' s' c' m' _. apply Hk.
Qed.

Lemma rmatch_binds (r : regex) :
  (binds g) r = true -> forall k, (keeps g) k -> (yields g) (fun i s c => rmatch r i s c k).
Proof.
  induction r as [| |p|a IHa b IHb|a IHa b IHb|a IHa|a IHa|g' a IHa];
    cbn; try discriminate; intros B k Hk i s c m.
  - destruct ((binds g) a) eqn:Ba.
    + apply (IHa eq_refl (fun i' s' c' => rmatch b i' s' c' k)).
      by apply rmatch_keeps.
    + apply (rmatch_yields a (fun i' s' c' => rmatch b i' s' c' k)).
      by apply IHb.
  - apply andb_prop in B as [Ba Bb].
    destruct (rmatch a i s c k) eqn:E.
    + intros [= <-]. by eapply (IHa Ba k Hk).
    + by apply (IHb Bb k Hk).
  - destruct (Nat.eqb_spec g' g) as [->|_].
    + apply (rmatch_yields a (fun i' s' c' => k i' s' ((g, take (i' - i) s) :: c'))).
      intros i' s' c' m'. apply Hk, has_group_here.
    + apply (IHa B (fun i' s' c' => k i' s' ((g', take (i' - i) s) :: c'))).
      intros i' s' c' m' Hc'. apply Hk. by apply has_group_cons.
Qed.

Lemma rsearch_binds (r : regex) (s : list ascii) :
  (binds g) r = true -> forall i m, rsearch r i s = Some m -> (has_group g) m.
Proof.
  intros B. induction s as [|x s IH]; intros i m; cbn.
  - destruct (rmatch r i [] [] _) eqn:E; [|done].
    intros [= <-]. eapply (rmatch_binds r B); [|exact E].
    intros i' s' c' m' Hc' [= <-]. by apply has_group_cons.
  - destruct (rmatch r i (x :: s) [] _) eqn:E; [|by apply IH].
    intros [= <-]. eapply (rmatch_binds r B); [|exact E].
    intros i' s' c' m' Hc' [= <-]. by apply has_group_cons.
Qed.
End Captures.

(** The seventh group takes part in every match of the YouTube pattern,
    so reading its length does not throw. *)
Lemma youtube_match_has_id (url : string) (m : captures) :
  js_match url youtube_regExp = Some m -> is_Some (group m 7).
Proof. apply (rsearch_binds 7). reflexivity. Qed.

Lemma youtube_id_length (url id : string) :
  getYouTubeVideoId url = Normal (Some id) -> String.length id = 11%nat.
Proof.
  unfold getYouTubeVideoId.
  destruct (js_match url youtube_regExp) as [m|]; [|discriminate].
  destruct (group m 7) as [id'|]; [|discriminate].
  destruct (Nat.eqb_spec (String.length id') 11); [|discriminate].
  by intros [= <-].
Qed.

(** C9. For every URL, [getYouTubeVideoId] returns, without throwing,
    either [null] or a string of exactly 11 characters. *)
Theorem youtube_id_null_or_11_chars (url : string) :
  getYouTubeVideoId url = Normal None
  \/ exists id, getYouTubeVideoId url = Normal (Some id) /\ String.length id = 11%nat.
Proof.
  unfold getYouTubeVideoId.
  destruct (js_match url youtube_regExp) as [m|] eqn:E; [|by left].
  destruct (youtube_match_has_id url m E) as [id ->].
  destruct (Nat.eqb_spec (String.length id) 11); [right; by exists id | by left].
Qed.

(** The identity the component derives for a YouTube configuration is
    therefore 11 characters long whenever the extractor finds one. *)
Lemma youtube_identity_length (cfg : VideoConfig) (w : World) (id : string) :
  type_is cfg "local" = false ->
  type_is cfg "google_drive" = false ->
  type_is cfg "vimeo" = false ->
  getYouTubeVideoId (video_url cfg) = Normal (Some id) ->
  currentVideoIdRef (refs (update_identity cfg w)) = id /\ String.length id = 11%nat.
Proof.
  intros L G V E. unfold update_identity. rewrite L, G, V, E. cbn.
  pose proof (youtube_id_length _ _ E) as Len. split; [|done].
  unfold nonempty. destruct id; [discriminate|done].
Qed.

(** ** Configuration *)

(** C5. When the request for the configuration fails, when its body is
    not JSON, when the body is [null] and when its [video] is null, the
    component takes the built-in configuration: the default Vimeo URL,
    type ['vimeo'] and a delay of 180 seconds. Whatever the outcome, the
    mounted component has a configuration afterwards. *)
Theorem config_fetch_falls_back_to_default `{JsonCodec} :
  loadVideoConfig FetchRejected = default_config
  /\ loadVideoConfig BodyRejected = default_config
  /\ loadVideoConfig (BodyParsed DataNull) = default_config
  /\ loadVideoConfig (BodyParsed (DataObject None)) = default_config
  /\ video_url default_config = "https://vimeo.com/1142286537"
  /\ video_type default_config = "vimeo"
  /\ button_delay_seconds default_config = 180%Q
  /\ (forall (r : FetchOutcome) (st : Storage) (session : bool) (clock : Z) (yt ops : bool),
        videoConfig (react (step (mount st session clock yt ops) (ConfigLoaded r)))
        = Some (loadVideoConfig r)).
Proof. repeat split. Qed.


(** ** The unlock poll *)

Section Poll.
Context `{JsonCodec}.

Lemma trace_unlock (w : World) : trace (sys (unlock w)) = (trace (sys w) ++ [ObsUnlock])%list.
Proof. unfold unlock, setButtonEnabled. by destruct (mounted (page w)). Qed.

Lemma count_unlock_app (t u : list Obs) :
  count_unlock (t ++ u)%list = (count_unlock t + count_unlock u)%nat.
Proof. induction t as [|[] t IH]; cbn; lia. Qed.

Lemma unlock_calls_unlock (w : World) : unlock_calls (unlock w) = S (unlock_calls w).
Proof. unfold unlock_calls. rewrite trace_unlock, count_unlock_app. cbn. lia. Qed.

(** The guard [!buttonEnabled] of a poll callback reads the binding of
    the render that created the callback. When that binding is [false],
    the callback calls [onButtonEnable] at every tick at or past the
    threshold, whatever [setButtonEnabled] has stored since. *)
Lemma poll_vimeo_stale_guard (cl : Closure) (cfg : VideoConfig) (startTime : Z) (w : World) :
  cl_videoConfig cl = Some cfg ->
  cl_buttonEnabled cl = false ->
  q_ge (inject_Z (now (sys w) - startTime) / 1000) (button_delay_seconds cfg) = true ->
  unlock_calls (run_task (PollVimeo cl startTime) w) = S (unlock_calls w).
Proof.
  intros C B T. cbn. unfold poll_vimeo. rewrite C, B, T. cbn.
  apply unlock_calls_unlock.
Qed.

Lemma poll_local_stale_guard (cl : Closure) (cfg : VideoConfig) (video : Media) (w : World) :
  cl_videoConfig cl = Some cfg ->
  cl_buttonEnabled cl = false ->
  video_el (page w) = Some video ->
  q_ge (currentTime video) (button_delay_seconds cfg) = true ->
  unlock_calls (run_task (PollLocal cl) w) = S (unlock_calls w).
Proof.
  intros C B V T. cbn. unfold poll_local. rewrite V, C, B, T. cbn.
  apply unlock_calls_unlock.
Qed.
End Poll.

(** C1 (the code departs from the claim). With the default configuration
    (threshold 180 s), the overlay clicked at time 0 and the poll timer
    firing at 180.0 s, 180.3 s and 180.6 s, [onButtonEnable] is called
    three times: once per tick at or past the threshold, not once per
    session. *)
Theorem unlock_callback_repeats_past_threshold :
  let w0 := mount empty_storage true 0 false false in
  unlock_calls (run w0 (take 4 vimeo_three_ticks)) = 1%nat
  /\ unlock_calls (run w0 (take 6 vimeo_three_ticks)) = 2%nat
  /\ unlock_calls (run w0 vimeo_three_ticks) = 3%nat
  /\ buttonEnabled (react (run w0 (take 4 vimeo_three_ticks))) = true.
Proof. vm_compute. repeat split. Qed.


Section TimeSource.
Context `{JsonCodec}.


End TimeSource.


(** ** End of media and pause *)

Section Looping.
Context `{JsonCodec}.

Lemma cleared_entry (st : Storage) (videoId : string) :
  denied st = false ->
  entries (clearProgress st videoId) !! progress_key videoId = None.
Proof.
  intros D. unfold clearProgress, clearProgress_try, removeItem. rewrite D. cbn.
  apply lookup_delete_eq.
Qed.

(** C3. When the media ends, the handler removes the progress record of
    the current identity, seeks to 0 and plays again: the direct file
    through [handleLocalVideoEnded], YouTube through the [ENDED] branch
    of [onStateChange]. The element, which the browser had put in the
    ended state, is playing from position 0 when the handler returns. *)
Theorem ended_clears_progress_and_replays (w : World) :
  let id := currentVideoIdRef (refs w) in
  (forall video, video_el (page w) = Some video ->
     let w' := handle VideoEnded w in
     video_el (page w') = Some (mkMedia 0 Playing (muted video))
     /\ storage (sys w') = clearProgress (storage (sys w)) id
     /\ getSavedProgress (storage (sys w')) id = JsNum 0
     /\ (denied (storage (sys w)) = false ->
         entries (storage (sys w')) !! progress_key id = None))
  /\ (forall player,
        playerRef (refs w) = Some player -> yt_ready player = true ->
        mounted (page w) = true ->
        let w' := handle (YTStateChange YT_ENDED) w in
        playerRef (refs w')
        = Some (mkYTPlayer (mkMedia 0 Playing (muted (yt_media player))) true
                           (yt_render player))
        /\ storage (sys w') = clearProgress (storage (sys w)) id
        /\ getSavedProgress (storage (sys w')) id = JsNum 0
        /\ (denied (storage (sys w)) = false ->
            entries (storage (sys w')) !! progress_key id = None)).
Proof.
  intros id. subst id. split.
  - intros video V w'. subst w'. cbn. rewrite V.
    destruct w as [re rf pg sy]. destruct pg. cbn in *. subst. cbn.
    repeat split; [apply clear_then_get | apply cleared_entry].
  - intros player P R _ w'. subst w'. cbn. rewrite P.
    destruct w as [re rf pg sy]. destruct rf, player. cbn in *. subst. cbn.
    repeat split; [apply clear_then_get | apply cleared_entry].
Qed.

(** C4, amended. In this component, whose playback starts with the click
    on the play overlay, a pause is answered at once: the handler saves
    the position when an identity is known and calls [play()] again,
    for the direct file and for YouTube alike. *)
Theorem pause_is_resumed (w : World) :
  let id := currentVideoIdRef (refs w) in
  (forall video, video_el (page w) = Some video ->
     let w' := handle VideoPause w in
     video_el (page w') = Some (mkMedia (currentTime video) Playing (muted video))
     /\ (nonempty id = true ->
         trace (sys w') = (trace (sys w) ++ [ObsSave id (currentTime video)])%list))
  /\ (forall player,
        playerRef (refs w) = Some player -> yt_ready player = true ->
        mounted (page w) = true ->
        let w' := handle (YTStateChange YT_PAUSED) w in
        playerRef (refs w')
        = Some (mkYTPlayer (mkMedia (currentTime (yt_media player)) Playing
                                    (muted (yt_media player))) true (yt_render player))
        /\ (nonempty id = true ->
            trace (sys w')
            = (trace (sys w) ++ [ObsSave id (currentTime (yt_media player))])%list)).
Proof.
  intros id. subst id. split.
  - intros video V w'. subst w'. cbn. rewrite V.
    destruct w as [re rf pg sy]. destruct pg. cbn in *. subst. cbn.
    unfold handleLocalVideoPause. cbn.
    destruct (nonempty (currentVideoIdRef rf)); cbn; by split.
  - intros player P R _ w'. subst w'. cbn. rewrite P.
    destruct w as [re rf pg sy]. destruct rf, player. cbn in *. subst. cbn.
    destruct (nonempty currentVideoIdRef0); cbn; by split.
Qed.
End Looping.


(** A direct-file session that saved its position and then reached the
    end of the file. *)
Lemma ended_clears_progress_and_replays_witness :
  let w := run (mount empty_storage true 0 false false)
               (local_session ++ [VideoPause; MediaTime TLocal 9]) in
  entries (storage (sys w)) !! progress_key "/videos/aula.mp4"
  = Some (JSON_stringify (progress_record 3 0))
  /\ video_el (page (handle VideoEnded w)) = Some (mkMedia 0 Playing false)
  /\ entries (storage (sys (handle VideoEnded w))) !! progress_key "/videos/aula.mp4" = None.
Proof.
  intros w. split; [vm_compute; reflexivity|].
  destruct (ended_clears_progress_and_replays w) as [Hlocal _].
  destruct (Hlocal (mkMedia 9 Playing false) ltac:(vm_compute; reflexivity))
    as (Hv & _ & _ & He).
  split; [exact Hv | exact (He eq_refl)].
Defined.

(** C4, as stated, fails: in the component with the play overlay, after
    the click and once the media plays, a pause event leaves the media
    playing, for the direct file and for YouTube. *)
Lemma explicit_click_pause_resumes :
  let w0 := mount empty_storage true 0 false false in
  let local := run w0 local_session in
  let youtube := run w0 youtube_session in
  showPlayOverlay (react local) = false
  /\ state_of (video_el (page (step local VideoPause))) = Some Playing
  /\ showPlayOverlay (react youtube) = false
  /\ state_of (yt_media <$> playerRef (refs (step youtube (YTStateChange YT_PAUSED))))
     = Some Playing.
Proof. vm_compute. repeat split. Qed.

Lemma pause_is_resumed_witness :
  let w := run (mount empty_storage true 0 false false) youtube_session in
  playerRef (refs (handle (YTStateChange YT_PAUSED) w))
  = Some (mkYTPlayer (mkMedia 3 Playing false) true (mkClosure (Some youtube_config) false))
  /\ trace (sys (handle (YTStateChange YT_PAUSED) w)) = [ObsSave "dQw4w9WgXcQ" 3].
Proof.
  intros w.
  destruct (pause_is_resumed w) as [_ Hyt].
  destruct (Hyt (mkYTPlayer (mkMedia 3 Playing false) true (mkClosure (Some youtube_config) false))
              ltac:(vm_compute; reflexivity) eq_refl ltac:(vm_compute; reflexivity))
    as [Hp Ht].
  split; [exact Hp | exact (Ht ltac:(vm_compute; reflexivity))].
Defined.

(** ** Timers and closures of a running component *)


Section Invariant.
Context `{JsonCodec}.

Lemma Inv_view (w w' : World) : view w' = view w -> Inv w -> Inv w'.
Proof.
  unfold view. intros [= Et Ep Es Eg Eb Epp Ea Er] [I1 I2 I3 I4 I5 I6].
  split; unfold closure_ok, capture in *; cbn in *.
  - intros id t. rewrite Et, Ep, Es. apply I1.
  - intros id t. rewrite Et, Eg. apply I2.
  - rewrite Eb, Eg. apply I3.
  - intros cl. rewrite Epp, Eg. apply I4.
  - intros videoId cl. rewrite Ea, Eg. apply I5.
  - intros p Hp. rewrite Eg.
    destruct (playerRef (refs w)) as [p0|] eqn:E0; rewrite Hp in Er; [|done].
    injection Er as Er. rewrite Er. by apply I6.
Qed.

Ltac same_view := intros; eapply Inv_view; [|eassumption]; reflexivity.

Lemma Inv_emit o w : Inv w -> Inv (emit o w).
Proof. same_view. Qed.

Lemma Inv_storage f w : Inv w -> Inv (on_sys (fun s => set_storage (f s) s) w).
Proof. same_view. Qed.

Lemma Inv_now f w : Inv w -> Inv (on_sys (fun s => set_now (f s) s) w).
Proof. same_view. Qed.

Lemma Inv_do_saveProgress videoId time w : Inv w -> Inv (do_saveProgress videoId time w).
Proof. same_view. Qed.

Lemma Inv_do_clearProgress videoId w : Inv w -> Inv (do_clearProgress videoId w).
Proof. same_view. Qed.

Lemma Inv_with_video f w : Inv w -> Inv (with_video f w).
Proof. same_view. Qed.

Lemma Inv_with_vimeo f w : Inv w -> Inv (with_vimeo f w).
Proof. same_view. Qed.

Lemma Inv_commit w : Inv w -> Inv (commit w).
Proof. same_view. Qed.

Lemma Inv_update_identity cfg w : Inv w -> Inv (update_identity cfg w).
Proof. same_view. Qed.

Lemma Inv_beforeunload v w : Inv w -> Inv (on_page (set_beforeunload v) w).
Proof. same_view. Qed.

Lemma Inv_mounted v w : Inv w -> Inv (on_page (set_mounted v) w).
Proof. same_view. Qed.

Lemma Inv_window_YT v w : Inv w -> Inv (on_page (set_window_YT v) w).
Proof. same_view. Qed.

Lemma Inv_setShowHudOverlay v w : Inv w -> Inv (setShowHudOverlay v w).
Proof. unfold setShowHudOverlay. destruct (mounted (page w)); [same_view|done]. Qed.

Lemma Inv_setShowPlayOverlay v w : Inv w -> Inv (setShowPlayOverlay v w).
Proof. unfold setShowPlayOverlay. destruct (mounted (page w)); [same_view|done]. Qed.

Lemma Inv_setVideoConfig v w : Inv w -> Inv (setVideoConfig v w).
Proof. unfold setVideoConfig. destruct (mounted (page w)); [same_view|done]. Qed.

Lemma Inv_with_player f w :
  (forall p, yt_render (f p) = yt_render p) -> Inv w -> Inv (with_player f w).
Proof.
  intros Hf. apply Inv_view. unfold view. cbn.
  destruct (playerRef (refs w)); cbn; [by rewrite Hf|done].
Qed.

Lemma Inv_when_ready f w : Inv w -> Inv (with_player (when_ready f) w).
Proof. apply Inv_with_player. intros p. unfold when_ready. by destruct (yt_ready p). Qed.

Lemma Inv_on_yt_media f w : Inv w -> Inv (with_player (on_yt_media f) w).
Proof. by apply Inv_with_player. Qed.

Lemma Inv_clearTimer id w : Inv w -> Inv (clearTimer id w).
Proof.
  intros [I1 I2 I3 I4 I5 I6]. split; try done; cbn; intros id' t L Ht.
  - apply lookup_delete_Some in L as [_ L]. by apply (I1 id' t).
  - apply lookup_delete_Some in L as [_ L]. by apply (I2 id' t).
Qed.

Lemma Inv_clear_if_set r w : Inv w -> Inv (clear_if_set r w).
Proof. destruct r; [apply Inv_clearTimer|done]. Qed.

Lemma Inv_armHudTimeout w : Inv w -> Inv (armHudTimeout w).
Proof.
  intros [I1 I2 I3 I4 I5 I6]. split; try done; cbn; intros id t L Ht.
  - apply lookup_insert_Some in L as [[_ <-]|[_ L]]; [done|by apply (I1 id t)].
  - apply lookup_insert_Some in L as [[_ <-]|[_ L]]; [done|by apply (I2 id t)].
Qed.

Lemma Inv_started w : Inv w -> Inv (on_refs (set_trackingStartedRef true) w).
Proof.
  intros [I1 I2 I3 I4 I5 I6]. split; unfold closure_ok; cbn; try done.
  intros id t L P. split; [done|]. by apply (I2 id t).
Qed.

Lemma Inv_arm_poll t w :
  is_poll t = true -> task_flag t = false -> trackingStartedRef (refs w) = true ->
  Inv w -> Inv (arm_poll t w).
Proof.
  intros P F S [I1 I2 I3 I4 I5 I6]. unfold arm_poll, clear_if_set.
  split; try (by destruct (progressIntervalRef (refs w))).
  - intros id t'. destruct (progressIntervalRef (refs w)) as [old|] eqn:E; cbn;
      intros L Hi; apply lookup_insert_Some in L as [[<- _]|[N L]]; try (by left).
    + apply lookup_delete_Some in L as [N' L].
      destruct (I1 id t' L Hi) as [?|?]; [congruence|by right].
    + destruct (I1 id t' L Hi) as [?|?]; [congruence|by right].
  - intros id t'. destruct (progressIntervalRef (refs w)) as [old|] eqn:E; cbn;
      intros L Hp; apply lookup_insert_Some in L as [[_ <-]|[N L]]; try done.
    + apply lookup_delete_Some in L as [_ L]. by apply (I2 id t').
    + by apply (I2 id t').
Qed.

Lemma Inv_arm_save t w : is_poll t = false -> Inv w -> Inv (arm_save t w).
Proof.
  intros P [I1 I2 I3 I4 I5 I6]. unfold arm_save, clear_if_set.
  split; try (by destruct (saveProgressIntervalRef (refs w))).
  - intros id t'. destruct (saveProgressIntervalRef (refs w)) as [old|] eqn:E; cbn;
      intros L Hi; apply lookup_insert_Some in L as [[<- _]|[N L]]; try (by right).
    + apply lookup_delete_Some in L as [N' L].
      destruct (I1 id t' L Hi) as [?|?]; [by left|congruence].
    + destruct (I1 id t' L Hi) as [?|?]; [by left|congruence].
  - intros id t'. destruct (saveProgressIntervalRef (refs w)) as [old|] eqn:E; cbn;
      intros L Hp; apply lookup_insert_Some in L as [[_ <-]|[N L]]; try congruence.
    + apply lookup_delete_Some in L as [_ L]. by apply (I2 id t').
    + by apply (I2 id t').
Qed.

Lemma closure_flag_false w cl :
  closure_ok w cl -> trackingStartedRef (refs w) = false -> cl_buttonEnabled cl = false.
Proof. unfold closure_ok. destruct (cl_buttonEnabled cl); [|done]. intros Hc E. by rewrite Hc in E. Qed.

Lemma Inv_track (mk : Closure -> World -> Task) cl w :
  (forall w', is_poll (mk cl w') = true /\ task_flag (mk cl w') = cl_buttonEnabled cl) ->
  closure_ok w cl -> Inv w ->
  Inv (if trackingStartedRef (refs w) then w
       else arm_poll (mk cl (on_refs (set_trackingStartedRef true) w))
                     (on_refs (set_trackingStartedRef true) w)).
Proof.
  intros Hmk Hc I. destruct (trackingStartedRef (refs w)) eqn:S; [done|].
  destruct (Hmk (on_refs (set_trackingStartedRef true) w)) as [P F].
  apply Inv_arm_poll; [done| |done|by apply Inv_started].
  rewrite F. by eapply closure_flag_false.
Qed.

Lemma Inv_trackVimeoProgress cl w : closure_ok w cl -> Inv w -> Inv (trackVimeoProgress cl w).
Proof. apply (Inv_track (fun cl w' => PollVimeo cl (now (sys w')))). by split. Qed.

Lemma Inv_trackGoogleDriveProgress cl w :
  closure_ok w cl -> Inv w -> Inv (trackGoogleDriveProgress cl w).
Proof. apply (Inv_track (fun cl w' => PollGoogleDrive cl (now (sys w')))). by split. Qed.

Lemma Inv_trackLocalVideoProgress cl w :
  closure_ok w cl -> Inv w -> Inv (trackLocalVideoProgress cl w).
Proof. apply (Inv_track (fun cl _ => PollLocal cl)). by split. Qed.

Lemma Inv_trackVideoProgress cl w : closure_ok w cl -> Inv w -> Inv (trackVideoProgress cl w).
Proof. apply (Inv_track (fun cl _ => PollYouTube cl)). by split. Qed.

Lemma Inv_unlock w : trackingStartedRef (refs w) = true -> Inv w -> Inv (unlock w).
Proof.
  intros S I. apply Inv_emit. unfold setButtonEnabled.
  destruct (mounted (page w)); [|done].
  destruct I as [I1 I2 I3 I4 I5 I6]. split; try done.
  intros _. exact S.
Qed.

Lemma Inv_play_promise o w :
  (forall cl, o = Some cl -> closure_ok w cl) -> Inv w -> Inv (on_page (set_play_promise o) w).
Proof. intros Ho [I1 I2 I3 I4 I5 I6]. by split. Qed.

Lemma Inv_api_ready o w :
  (forall videoId cl, o = Some (videoId, cl) -> closure_ok w cl) ->
  Inv w -> Inv (on_page (set_onYouTubeIframeAPIReady o) w).
Proof. intros Ho [I1 I2 I3 I4 I5 I6]. by split. Qed.

Lemma Inv_playerRef p w :
  closure_ok w (yt_render p) -> Inv w -> Inv (on_refs (set_playerRef (Some p)) w).
Proof.
  intros Hp [I1 I2 I3 I4 I5 I6]. split; try done.
  intros p' [= <-]. exact Hp.
Qed.
End Invariant.

Section HandlersKeepInv.
Context `{JsonCodec}.

Lemma closure_ok_same (w w' : World) (cl : Closure) :
  trackingStartedRef (refs w') = trackingStartedRef (refs w) ->
  closure_ok w cl -> closure_ok w' cl.
Proof. unfold closure_ok. by intros ->. Qed.

Lemma Inv_poll_task (t : Task) (w : World) :
  is_poll t = true -> trackingStartedRef (refs w) = true -> Inv w -> Inv (run_task t w).
Proof.
  intros P S I.
  destruct t as [|cl st|cl st|cl|cl| |]; try discriminate; cbn.
  - unfold poll_vimeo. destruct (cl_videoConfig cl); [|done].
    destruct (_ && _); [by apply Inv_unlock|done].
  - unfold poll_google_drive. destruct (cl_videoConfig cl); [|done].
    destruct (_ && _); [by apply Inv_unlock|done].
  - unfold poll_local. destruct (video_el (page w)); [|done].
    destruct (cl_videoConfig cl); [|done].
    destruct (_ && _); [by apply Inv_unlock|done].
  - unfold poll_youtube. destruct (playerRef (refs w)) as [p|]; [|done].
    destruct (yt_ready p); [|done]. destruct (cl_videoConfig cl); [|done].
    destruct (_ && _); [by apply Inv_unlock|done].
Qed.

Lemma Inv_run_task (t : Task) (w : World) :
  (is_poll t = true -> trackingStartedRef (refs w) = true) -> Inv w -> Inv (run_task t w).
Proof.
  intros S I. destruct (is_poll t) eqn:P; [by apply Inv_poll_task; auto|].
  destruct t; try discriminate; cbn.
  - by apply Inv_setShowHudOverlay.
  - unfold save_local. destruct (video_el (page w)); [|done].
    destruct (_ && _); [by apply Inv_do_saveProgress|done].
  - unfold save_youtube. destruct (playerRef (refs w)); [|done].
    destruct (_ && _); [by apply Inv_do_saveProgress|done].
Qed.

Lemma Inv_fire (id : nat) (w : World) : Inv w -> Inv (handle (Fire id) w).
Proof.
  intros I. cbn. destruct (timers (sys w) !! id) as [t|] eqn:L; [|done].
  apply Inv_run_task.
  - intros P. destruct t; try discriminate; cbn; by apply (inv_polls w I id _ L).
  - destruct (is_interval t); [done|by apply Inv_clearTimer].
Qed.

Lemma Inv_local_started (cl : Closure) (w : World) :
  closure_ok w cl -> Inv w ->
  Inv (startSavingLocalProgress (trackLocalVideoProgress cl (armHudTimeout w))).
Proof.
  intros Hc I. apply Inv_arm_save; [done|].
  apply Inv_trackLocalVideoProgress; [exact Hc|by apply Inv_armHudTimeout].
Qed.

Lemma Inv_handleBeforeUnload (cl : Closure) (w : World) :
  Inv w -> Inv (handleBeforeUnload cl w).
Proof.
  intros I. unfold handleBeforeUnload.
  repeat case_match; try done; by apply Inv_do_saveProgress.
Qed.

Lemma Inv_setupLocalVideo (cl : Closure) (w : World) :
  closure_ok w cl -> Inv w -> Inv (setupLocalVideo cl w).
Proof.
  intros Hc I. unfold setupLocalVideo.
  destruct (video_el (page w)); [|done]. destruct (cl_videoConfig cl); [|done].
  assert (S : forall w', Inv w' -> closure_ok w' cl ->
            Inv (on_page (set_play_promise (Some cl))
                   (with_video play (with_video (set_muted false) w')))).
  { intros w' I' Hc'. apply Inv_play_promise; [|by do 2 apply Inv_with_video].
    intros cl' [= <-]. by eapply closure_ok_same; [|exact Hc']. }
  unfold set_currentTime. destruct (js_gt_zero _); [|by apply S].
  destruct (to_number _); try done.
  apply S; [by apply Inv_with_video|]. by eapply closure_ok_same; [|exact Hc].
Qed.

Lemma Inv_setupGoogleDriveVideo (cl : Closure) (w : World) :
  closure_ok w cl -> Inv w -> Inv (setupGoogleDriveVideo cl w).
Proof.
  intros Hc I. unfold setupGoogleDriveVideo. destruct (cl_videoConfig cl); [|done].
  apply Inv_trackGoogleDriveProgress; [exact Hc|by apply Inv_armHudTimeout].
Qed.

Lemma Inv_startVimeoManually (cl : Closure) (w : World) :
  closure_ok w cl -> Inv w -> Inv (startVimeoManually cl w).
Proof.
  intros Hc I. unfold startVimeoManually, authorize_sound.
  destruct (vimeo_el (page w)); [|done]. cbn.
  destruct (session_ok (sys w)); [|by apply Inv_with_vimeo].
  apply Inv_trackVimeoProgress; [exact Hc|].
  by apply Inv_armHudTimeout, Inv_with_vimeo.
Qed.

Lemma Inv_createYouTubePlayer (cl : Closure) (videoId : string) (w : World) :
  closure_ok w cl -> Inv w -> Inv (createYouTubePlayer cl videoId w).
Proof. intros Hc I. by apply Inv_playerRef. Qed.

Lemma Inv_loadYouTubePlayer (cl : Closure) (videoId : string) (w : World) :
  closure_ok w cl -> Inv w -> Inv (loadYouTubePlayer cl videoId w).
Proof.
  intros Hc I. unfold loadYouTubePlayer. destruct (negb _).
  - apply Inv_api_ready; [|done]. by intros ? ? [= _ <-].
  - by apply Inv_createYouTubePlayer.
Qed.

Lemma Inv_handleManualPlay (cl : Closure) (w : World) :
  closure_ok w cl -> Inv w -> Inv (handleManualPlay cl w).
Proof.
  intros Hc I. unfold handleManualPlay.
  set (w2 := if has_onPlayStart _ then _ else _).
  assert (Hc2 : closure_ok w2 cl).
  { eapply closure_ok_same; [|exact Hc]. subst w2. unfold setShowPlayOverlay.
    by destruct (mounted (page w)), (has_onPlayStart _). }
  assert (I2 : Inv w2).
  { subst w2. destruct (has_onPlayStart _);
      [apply Inv_emit|]; by apply Inv_setShowPlayOverlay. }
  clearbody w2.
  destruct (cl_type_is cl "local"); [by apply Inv_setupLocalVideo|].
  destruct (cl_type_is cl "google_drive"); [by apply Inv_setupGoogleDriveVideo|].
  destruct (cl_type_is cl "vimeo"); [by apply Inv_startVimeoManually|].
  destruct (getYouTubeVideoId _) as [[videoId|]|]; try done.
  destruct (nonempty videoId); [by apply Inv_loadYouTubePlayer|done].
Qed.

Lemma Inv_handleLocalVideoPause (w : World) : Inv w -> Inv (handleLocalVideoPause w).
Proof.
  intros I. unfold handleLocalVideoPause. apply Inv_with_video.
  destruct (video_el (page w)); [|done].
  destruct (nonempty _); [by apply Inv_do_saveProgress|done].
Qed.

Lemma Inv_onStateChange (cl : Closure) (s : YTState) (w : World) :
  closure_ok w cl -> Inv w -> Inv (onStateChange cl s w).
Proof.
  intros Hc I. unfold onStateChange, authorize_sound.
  destruct s; cbn; try done.
  - by apply Inv_when_ready, Inv_do_clearProgress.
  - destruct (session_ok (sys w)); cbn; [|done].
    apply Inv_arm_save; [done|].
    apply Inv_trackVideoProgress; [exact Hc|by apply Inv_armHudTimeout].
  - apply Inv_when_ready. destruct (playerRef (refs w)) as [p|]; [|done].
    destruct (_ && _); [by apply Inv_do_saveProgress|done].
Qed.

Lemma Inv_cleanup (w : World) : Inv w -> Inv (cleanup w).
Proof.
  intros I. unfold cleanup.
  apply Inv_clear_if_set, Inv_clear_if_set, Inv_beforeunload, Inv_clear_if_set.
  by apply Inv_clear_if_set.
Qed.

Lemma Inv_handle (e : Event) (w : World) : Inv w -> Inv (handle e w).
Proof.
  intros I. destruct e as [r| |f| | | | | |s|[] q|dt|id| |].
  - cbn. destruct (videoConfig (react w)); [done|].
    destruct (mounted (page w)); [|done].
    by apply Inv_beforeunload, Inv_update_identity, Inv_setVideoConfig.
  - cbn. destruct (videoConfig (react w)); [|done].
    destruct (_ && _); [|done].
    apply Inv_handleManualPlay; [apply (inv_state w I)|done].
  - cbn. destruct (play_promise (page w)) as [cl|] eqn:P; [|done].
    assert (I' : Inv (on_page (set_play_promise None) w))
      by (by apply Inv_play_promise).
    destruct f; [|done]. unfold localPlayStarted, authorize_sound. cbn.
    destruct (session_ok (sys w)); [|done].
    apply Inv_local_started; [exact (inv_promise w I cl P)|done].
  - cbn. destruct (video_el (page w)); [|done].
    unfold handleLocalVideoPlay, authorize_sound. cbn.
    destruct (session_ok (sys w)); [|by apply Inv_with_video].
    apply Inv_local_started; [apply (inv_state w I)|by apply Inv_with_video].
  - cbn. destruct (video_el (page w)); [|done].
    unfold handleLocalVideoEnded.
    by apply Inv_with_video, Inv_do_clearProgress, Inv_with_video.
  - cbn. destruct (video_el (page w)); [|done].
    by apply Inv_handleLocalVideoPause, Inv_with_video.
  - cbn. destruct (onYouTubeIframeAPIReady (page w)) as [[videoId cl]|] eqn:A;
      [|by apply Inv_window_YT].
    apply Inv_createYouTubePlayer; [exact (inv_api_ready w I videoId cl A)|].
    apply Inv_api_ready; [done|by apply Inv_window_YT].
  - cbn. destruct (playerRef (refs w)); [|done].
    unfold onReady. by apply Inv_on_yt_media, Inv_with_player.
  - cbn. destruct (playerRef (refs w)) as [p|] eqn:P; [|done].
    apply Inv_onStateChange; [exact (inv_player w I p P)|by apply Inv_on_yt_media].
  - by apply Inv_with_video.
  - by apply Inv_on_yt_media.
  - by apply Inv_with_vimeo.
  - by apply Inv_now.
  - by apply Inv_fire.
  - cbn. destruct (beforeunload (page w)); [by apply Inv_handleBeforeUnload|done].
  - cbn. destruct (mounted (page w)); [|done]. by apply Inv_mounted, Inv_cleanup.
Qed.

Lemma Inv_step (w : World) (e : Event) : Inv w -> Inv (step w e).
Proof. intros I. by apply Inv_commit, Inv_handle. Qed.

Lemma Inv_run (es : list Event) (w : World) : Inv w -> Inv (run w es).
Proof.
  revert w. induction es as [|e es IH]; intros w I; [done|].
  cbn. by apply IH, Inv_step.
Qed.

Lemma Inv_mount st session clock yt ops : Inv (mount st session clock yt ops).
Proof. split; try done; cbn; intros ? ? L; by rewrite lookup_empty in L. Qed.

(** In a running component the flag seen by a live poll callback is the
    [false] of the render that armed it, so its guard never closes. *)
Lemma live_poll_guard_is_stale st session clock yt ops (es : list Event) (id : nat) (t : Task) :
  timers (sys (run (mount st session clock yt ops) es)) !! id = Some t ->
  is_poll t = true -> task_flag t = false.
Proof.
  intros L P.
  by apply (inv_polls _ (Inv_run es _ (Inv_mount st session clock yt ops)) id t L P).
Qed.

(** X13. Hence, however the component got where it is, each tick of the Vimeo
    or Drive poll at or past the threshold calls [onButtonEnable] once
    more, and so does each tick of the direct-file poll while the element
    is at or past the threshold. *)
Lemma every_late_tick_unlocks st session clock yt ops (es : list Event)
    (id : nat) (cl : Closure) (cfg : VideoConfig) :
  let w := run (mount st session clock yt ops) es in
  cl_videoConfig cl = Some cfg ->
  (forall startTime,
     timers (sys w) !! id = Some (PollVimeo cl startTime)
     \/ timers (sys w) !! id = Some (PollGoogleDrive cl startTime) ->
     q_ge (inject_Z (now (sys w) - startTime) / 1000) (button_delay_seconds cfg) = true ->
     unlock_calls (handle (Fire id) w) = S (unlock_calls w))
  /\ (forall video,
       timers (sys w) !! id = Some (PollLocal cl) ->
       video_el (page w) = Some video ->
       q_ge (currentTime video) (button_delay_seconds cfg) = true ->
       unlock_calls (handle (Fire id) w) = S (unlock_calls w)).
Proof.
  intros w C. split.
  - intros startTime [L|L] T;
      pose proof (live_poll_guard_is_stale _ _ _ _ _ es id _ L eq_refl) as B;
      cbn in B; cbn; fold w; rewrite L; cbn.
    + by apply poll_vimeo_stale_guard with cfg.
    + unfold poll_google_drive. rewrite C, B, T. cbn. apply unlock_calls_unlock.
  - intros video L V T.
    pose proof (live_poll_guard_is_stale _ _ _ _ _ es id _ L eq_refl) as B.
    cbn in B. cbn. fold w. rewrite L. cbn. by apply poll_local_stale_guard with cfg video.
Qed.
End HandlersKeepInv.

(** ** Teardown *)


Section Teardown.
Context `{JsonCodec}.

Lemma refs_clear_if_set (r : option nat) (w : World) : refs (clear_if_set r w) = refs w.
Proof. by destruct r. Qed.

Lemma page_clear_if_set (r : option nat) (w : World) : page (clear_if_set r w) = page w.
Proof. by destruct r. Qed.

Lemma trace_clear_if_set (r : option nat) (w : World) :
  trace (sys (clear_if_set r w)) = trace (sys w).
Proof. by destruct r. Qed.

Lemma cleanup_listener (w : World) : beforeunload (page (cleanup w)) = None.
Proof. unfold cleanup. cbv zeta. by rewrite !page_clear_if_set. Qed.

Lemma cleanup_trace (w : World) : trace (sys (cleanup w)) = trace (sys w).
Proof.
  unfold cleanup. cbv zeta. rewrite !trace_clear_if_set.
  change (trace (sys (on_page ?f ?x))) with (trace (sys x)).
  by rewrite !trace_clear_if_set.
Qed.

Lemma clear_if_set_lookup (r : option nat) (w : World) (id : nat) (t : Task) :
  timers (sys (clear_if_set r w)) !! id = Some t ->
  r <> Some id /\ timers (sys w) !! id = Some t.
Proof.
  destruct r as [id'|]; cbn; [|done].
  rewrite lookup_delete_Some. intros [N L]. split; [congruence|done].
Qed.

Lemma cleanup_timers (w : World) (id : nat) (t : Task) :
  timers (sys (cleanup w)) !! id = Some t ->
  timers (sys w) !! id = Some t
  /\ progressIntervalRef (refs w) <> Some id
  /\ saveProgressIntervalRef (refs w) <> Some id
  /\ hudOverlayTimeoutRef (refs w) <> Some id.
Proof.
  unfold cleanup. cbv zeta. intros L.
  apply clear_if_set_lookup in L as [_ L].
  apply clear_if_set_lookup in L as [Np L].
  change (timers (sys (on_page ?f ?x))) with (timers (sys x)) in L.
  change (refs (on_page ?f ?x)) with (refs x) in Np.
  apply clear_if_set_lookup in L as [Ns L].
  apply clear_if_set_lookup in L as [Nh L].
  rewrite !refs_clear_if_set in *. done.
Qed.

Lemma unmount_quiet (w : World) :
  Inv w -> mounted (page w) = true -> Quiet (step w Unmount).
Proof.
  intros I M. unfold step. cbn. rewrite M. split; cbn; try done.
  { apply cleanup_listener. }
  intros id t L. apply cleanup_timers in L as (L & Np & Ns & _).
  destruct t; try done; destruct (inv_intervals w I id _ L eq_refl); congruence.
Qed.

Lemma quiet_step (w : World) (e : Event) :
  Quiet w -> later_event e = true ->
  Quiet (step w e)
  /\ trace (sys (step w e)) = trace (sys w)
  /\ storage (sys (step w e)) = storage (sys w).
Proof.
  intros [M B T] L. destruct e; try discriminate; unfold step; cbn.
  - by repeat split.
  - destruct (timers (sys w) !! id) as [t|] eqn:E; [|by repeat split].
    rewrite (T id t E). cbn. unfold setShowHudOverlay. cbn. rewrite M.
    repeat split; try done. cbn. intros id' t' L'.
    apply lookup_delete_Some in L' as [_ L']. by apply (T id' t').
  - rewrite B. by repeat split.
Qed.

Lemma quiet_run (es : list Event) (w : World) :
  Quiet w -> forallb later_event es = true ->
  trace (sys (run w es)) = trace (sys w) /\ storage (sys (run w es)) = storage (sys w).
Proof.
  revert w. induction es as [|e es IH]; intros w Q L; [done|].
  cbn in L. apply andb_prop in L as [Le Les].
  destruct (quiet_step w e Q Le) as (Q' & Et & Es).
  change (run w (e :: es)) with (run (step w e) es).
  destruct (IH (step w e) Q' Les) as [-> ->]. by split.
Qed.

(** X12. After the unmount of a running component no interval is armed, the
    timeout that [hudOverlayTimeoutRef] holds is cancelled, the
    [beforeunload] listener is removed, and whatever time passes and
    whichever timer still fires, nothing is written to the Progress Store
    and [onButtonEnable] is not called. *)
Lemma teardown_is_quiet st session clock yt ops (before after : list Event) :
  let w := run (mount st session clock yt ops) before in
  mounted (page w) = true ->
  forallb later_event after = true ->
  let w' := step w Unmount in
  (forall id t, timers (sys w') !! id = Some t -> is_interval t = false)
  /\ (forall id, hudOverlayTimeoutRef (refs w) = Some id -> timers (sys w') !! id = None)
  /\ beforeunload (page w') = None
  /\ trace (sys w') = trace (sys w)
  /\ trace (sys (run w' after)) = trace (sys w')
  /\ storage (sys (run w' after)) = storage (sys w').
Proof.
  intros w M L w'.
  assert (I : Inv w) by apply Inv_run, Inv_mount.
  assert (Q : Quiet w') by by apply unmount_quiet.
  destruct (quiet_run after w' Q L) as [Et Es].
  repeat split; try done.
  - intros id t Lk. by rewrite (quiet_timers w' Q id t Lk).
  - intros id Hh. destruct (timers (sys w') !! id) as [t|] eqn:E; [|done].
    subst w'. unfold step in E. cbn in E. rewrite M in E. cbn in E.
    apply cleanup_timers in E as (_ & _ & _ & N). congruence.
  - apply (quiet_listener w' Q).
  - subst w'. unfold step. cbn. rewrite M. cbn. apply cleanup_trace.
Qed.
End Teardown.


(** C8 (the code departs from the claim). Teardown cancels the poll, the
    saver and the HUD timeout that [hudOverlayTimeoutRef] holds, and
    nothing is written or unlocked afterwards; but the HUD timeout armed
    by the first PLAYING event, which the second one overwrote in the ref
    without cancelling it, is still armed after the unmount and fires
    later. *)
Theorem stale_hud_timeout_survives_teardown :
  let w := run (mount empty_storage true 0 false false) rebuffering_session in
  mounted (page w) = false
  /\ hudOverlayTimeoutRef (refs w) = Some 4%nat
  /\ map_to_list (timers (sys w)) = [(1%nat, HideHud)]
  /\ timers (sys (run w [Advance 2000; Fire 1])) = ∅
  /\ trace (sys (run w [Advance 2000; Fire 1])) = trace (sys w).
Proof. vm_compute. repeat split. Qed.


(** * Further properties of the component *)

Local Set Warnings "-clear-no-such-hyp".

(** Unfolds the handlers down to the primitive commands. *)
Ltac unfold_handlers :=
  unfold handle, handleManualPlay, setupLocalVideo, setupGoogleDriveVideo, startVimeoManually,
    loadYouTubePlayer, createYouTubePlayer, localPlayStarted, handleLocalVideoPlay,
    handleLocalVideoEnded, handleLocalVideoPause, onReady, onStateChange, cleanup,
    handleBeforeUnload, run_task, poll_vimeo, poll_google_drive, poll_local, poll_youtube,
    save_local, save_youtube, unlock, startSavingLocalProgress, startSavingProgress,
    trackVimeoProgress, trackGoogleDriveProgress, trackLocalVideoProgress, trackVideoProgress,
    arm_poll, arm_save, armHudTimeout, clear_if_set, authorize_sound, update_identity,
    set_currentTime,
    do_saveProgress, do_clearProgress, setVideoConfig, setButtonEnabled, setShowHudOverlay,
    setShowPlayOverlay in *.

Ltac by_cases_on_handler :=
  unfold_handlers; cbn; repeat (case_match; simplify_eq/=).

(** ** One-way flags *)

Section Latches.
Context `{JsonCodec}.

Lemma latched_refl (w : World) : latched w w.
Proof. by repeat split. Qed.

Lemma latched_trans (w1 w2 w3 : World) : latched w1 w2 -> latched w2 w3 -> latched w1 w3.
Proof. unfold latched. naive_solver. Qed.

Lemma latched_handle (e : Event) (w : World) : latched w (handle e w).
Proof.
  unfold latched. destruct e as [r| |f| | | | | |s|[] q|dt|id| |]; by_cases_on_handler;
    repeat split; intros; simplify_eq/=; try congruence; done.
Qed.

Lemma latched_step (w : World) (e : Event) : latched w (step w e).
Proof. apply (latched_trans _ (handle e w)); [apply latched_handle|by repeat split]. Qed.

(** X1. Across any sequence of events: an enabled button stays enabled and a
    started tracking stays started; the HUD badge and the play overlay,
    once hidden, stay hidden; a loaded configuration is never replaced. *)
Theorem latches_are_one_way (w : World) (es : list Event) :
  let w' := run w es in
  (buttonEnabled (react w) = true -> buttonEnabled (react w') = true)
  /\ (trackingStartedRef (refs w) = true -> trackingStartedRef (refs w') = true)
  /\ (showHudOverlay (react w') = true -> showHudOverlay (react w) = true)
  /\ (showPlayOverlay (react w') = true -> showPlayOverlay (react w) = true)
  /\ (forall cfg, videoConfig (react w) = Some cfg -> videoConfig (react w') = Some cfg).
Proof.
  revert w. induction es as [|e es IH]; intros w; [apply latched_refl|].
  change (run w (e :: es)) with (run (step w e) es).
  apply (latched_trans _ (step w e)); [apply latched_step|apply IH].
Qed.
End Latches.

(** ** The click on a direct-file configuration *)

Section LocalClick.
Context `{JsonCodec}.

Lemma click_finds_no_video_handle (e : Event) (w : World) :
  click_finds_no_video w -> play_promise (page (handle e w)) = None.
Proof.
  intros [P V]. destruct e as [r| |f| | | | | |s|[] q|dt|id| |]; by_cases_on_handler;
    try done; try (rewrite P in *; simplify_eq/=; done).
  all: match goal with
       | Hv : video_el (page ?x) = Some _, Ho : showPlayOverlay (react ?x) = true |- _ =>
           rewrite (V _ Hv) in Ho; discriminate
       end.
Qed.

Lemma commit_video (w : World) (m : Media) :
  video_el (page (commit w)) = Some m -> showPlayOverlay (react w) = false.
Proof.
  unfold commit. cbn. destruct (video_rendered w) eqn:R; [|done]. intros _.
  unfold video_rendered in R. destruct (mounted (page w)); [|done]. cbn in R.
  destruct (videoConfig (react w)); [|done]. apply andb_prop in R as [_ R].
  by destruct (showPlayOverlay (react w)).
Qed.

Lemma click_finds_no_video_step (w : World) (e : Event) :
  click_finds_no_video w -> click_finds_no_video (step w e).
Proof.
  intros K. split.
  - unfold step, commit. cbn. by apply click_finds_no_video_handle.
  - intros m. exact (commit_video (handle e w) m).
Qed.

Lemma click_finds_no_video_run (es : list Event) (w : World) :
  click_finds_no_video w -> click_finds_no_video (run w es).
Proof.
  revert w. induction es as [|e es IH]; intros w K; [done|].
  change (run w (e :: es)) with (run (step w e) es). by apply IH, click_finds_no_video_step.
Qed.
End LocalClick.

(** X2. The click on the overlay cannot start a direct file: the [<video>] is
    not rendered while the overlay shows, so [setupLocalVideo] returns at
    its first test. In a session with a direct-file configuration the click
    arms no timer, does not start tracking and leaves no [play()] pending;
    the element that the next render creates is paused at position 0,
    whatever progress is saved. *)
Theorem click_does_not_start_local_video `{JsonCodec}
    (st : Storage) (session : bool) (clock : Z) (yt ops : bool) (es : list Event)
    (cfg : VideoConfig) :
  let w := run (mount st session clock yt ops) es in
  videoConfig (react w) = Some cfg ->
  type_is cfg "local" = true ->
  let w' := step w ManualPlay in
  timers (sys w') = timers (sys w)
  /\ trackingStartedRef (refs w') = trackingStartedRef (refs w)
  /\ play_promise (page w') = None
  /\ storage (sys w') = storage (sys w)
  /\ (showPlayOverlay (react w) = true ->
      video_el (page w) = None
      /\ forall m, video_el (page w') = Some m -> m = fresh_media).
Proof.
  intros w C L w'.
  assert (K : click_finds_no_video w).
  { apply click_finds_no_video_run. by split. }
  destruct K as [P V].
  assert (E : showPlayOverlay (react w) = true -> video_el (page w) = None).
  { intros O. destruct (video_el (page w)) as [m|] eqn:Hv; [|done].
    rewrite (V m eq_refl) in O. discriminate. }
  assert (CL : cl_type_is (capture w) "local" = true).
  { unfold cl_type_is, capture. cbn. by rewrite C. }
  subst w'. clearbody w. unfold step, commit, video_rendered.
  by_cases_on_handler; repeat split; intros; simplify_eq/=; try done;
    try (by rewrite E in * by done); try congruence.
Qed.

Lemma click_does_not_start_local_video_witness :
  let st := saveProgress empty_storage "/videos/aula.mp4" 42 1000 in
  let w := run (mount st true 0 false false) [served local_config] in
  getSavedProgress st "/videos/aula.mp4" = JsNum 42
  /\ timers (sys (step w ManualPlay)) = ∅
  /\ video_el (page (step w ManualPlay)) = Some fresh_media.
Proof.
  intros st w.
  destruct (click_does_not_start_local_video st true 0 false false [served local_config]
              local_config eq_refl eq_refl) as (Ht & _ & _ & _ & Hv).
  split; [vm_compute; reflexivity|]. split.
  - fold w in Ht. rewrite Ht. vm_compute. reflexivity.
  - vm_compute. reflexivity.
Defined.


(** ** One poll, one saver *)

Section TimersByRef.
Context `{JsonCodec}.

Lemma timers_by_ref_handle (e : Event) (w : World) :
  timers_by_ref w -> timers_by_ref (handle e w).
Proof.
  intros T. unfold timers_by_ref in *.
  destruct e as [r| |f| | | | | |s|[] q|dt|id| |]; by_cases_on_handler; try done.
  all: intros id' t' L;
    repeat match goal with
      | L : <[_:=_]> _ !! _ = Some _ |- _ => apply lookup_insert_Some in L as [[<- <-]|[? L]]
      | L : delete _ _ !! _ = Some _ |- _ => apply lookup_delete_Some in L as [? L]
      end;
    first [ by (split; intros; simplify_eq/=)
          | destruct (T _ _ L) as [Tp Ts];
            split; [intros Hp; specialize (Tp Hp) | intros Hi Hp; specialize (Ts Hi Hp)];
            congruence ].
Qed.

Lemma timers_by_ref_run (es : list Event) (w : World) :
  timers_by_ref w -> timers_by_ref (run w es).
Proof.
  revert w. induction es as [|e es IH]; intros w T; [done|].
  change (run w (e :: es)) with (run (step w e) es). apply IH.
  by apply (timers_by_ref_handle e w) in T.
Qed.

(** X3. However often playback starts, pauses and resumes, a session never
    runs two unlock polls or two progress savers at once: two live timers
    of the same kind are the same timer. *)
Theorem at_most_one_poll_and_one_saver
    (st : Storage) (session : bool) (clock : Z) (yt ops : bool) (es : list Event)
    (id1 id2 : nat) (t1 t2 : Task) :
  let w := run (mount st session clock yt ops) es in
  timers (sys w) !! id1 = Some t1 ->
  timers (sys w) !! id2 = Some t2 ->
  is_interval t1 = true ->
  is_poll t1 = is_poll t2 ->
  is_interval t2 = true ->
  id1 = id2 /\ t1 = t2.
Proof.
  intros w L1 L2 I1 P I2.
  assert (T : timers_by_ref w).
  { apply timers_by_ref_run. intros id t L. cbn in L. by rewrite lookup_empty in L. }
  destruct (T id1 t1 L1) as [Tp1 Ts1], (T id2 t2 L2) as [Tp2 Ts2].
  assert (id1 = id2) as ->.
  { destruct (is_poll t1) eqn:P1.
    - specialize (Tp1 eq_refl). symmetry in P. specialize (Tp2 P). congruence.
    - specialize (Ts1 I1 eq_refl). symmetry in P. specialize (Ts2 I2 P). congruence. }
  split; [done|congruence].
Qed.
End TimersByRef.

Lemma at_most_one_poll_and_one_saver_witness :
  let w := run (mount empty_storage true 0 false false)
               (youtube_session ++ [YTStateChange YT_PAUSED; YTStateChange YT_PLAYING;
                                    YTStateChange YT_BUFFERING; YTStateChange YT_PLAYING]) in
  let saver := snd <$> filter (fun e => negb (is_poll e.2) && is_interval e.2)
                              (map_to_list (timers (sys w))) in
  saver = [SaveYouTube]
  /\ (7%nat = 7%nat /\ SaveYouTube = SaveYouTube).
Proof.
  intros w saver. split; [vm_compute; reflexivity|].
  assert (L : timers (sys w) !! 7%nat = Some SaveYouTube) by (vm_compute; reflexivity).
  exact (at_most_one_poll_and_one_saver empty_storage true 0 false false _ 7%nat 7%nat
           SaveYouTube SaveYouTube L L eq_refl eq_refl eq_refl).
Defined.


(** ** Backends without a position never touch the Progress Store *)

Section EmbedOnly.
Context `{JsonCodec}.

Lemma type_is_one (cfg : VideoConfig) (a b : string) :
  a <> b -> type_is cfg a = true -> type_is cfg b = false.
Proof.
  unfold type_is. intros N Ea. apply String.eqb_eq in Ea.
  apply String.eqb_neq. congruence.
Qed.

Lemma embed_only_not_local (w : World) (cfg : VideoConfig) :
  embed_only w = true -> videoConfig (react w) = Some cfg -> type_is cfg "local" = false.
Proof.
  unfold embed_only. intros E C. rewrite C in E.
  apply orb_prop in E as [E|E];
    [apply (type_is_one cfg "vimeo" "local")|apply (type_is_one cfg "google_drive" "local")];
    done.
Qed.

Lemma embed_only_back (e : Event) (w : World) :
  embed_only (handle e w) = true -> embed_only w = true.
Proof.
  unfold embed_only. destruct (videoConfig (react w)) as [cfg|] eqn:C; [|done].
  destruct (latched_handle e w) as (_ & _ & _ & _ & L). by rewrite (L cfg C).
Qed.

Lemma store_untouched_handle (st : Storage) (e : Event) (w : World) :
  embed_only (handle e w) = true -> store_untouched st w -> store_untouched st (handle e w).
Proof.
  intros E (V & P & A & Pp & S & T).
  pose proof (embed_only_back e w E) as E0. clear E.
  assert (L : forall cfg, videoConfig (react w) = Some cfg -> cl_type_is (capture w) "local" = false).
  { intros cfg C. unfold cl_type_is, capture. cbn. rewrite C. by apply (embed_only_not_local w). }
  assert (Y : forall cfg, videoConfig (react w) = Some cfg ->
              cl_type_is (capture w) "google_drive" = false ->
              cl_type_is (capture w) "vimeo" = true).
  { intros cfg C. unfold cl_type_is, capture, embed_only in *. cbn. rewrite C in *.
    intros G. rewrite G, orb_false_r in E0. done. }
  unfold store_untouched.
  destruct e as [r| |f| | | | | |s|[] q|dt|id| |]; by_cases_on_handler;
    rewrite ?V, ?P, ?A, ?Pp in *; simplify_eq/=;
    rewrite ?forallb_app, ?T; try done;
    try (by specialize (L _ eq_refl)); try (by specialize (Y _ eq_refl eq_refl)).
Qed.

Lemma store_untouched_step (st : Storage) (w : World) (e : Event) :
  embed_only (step w e) = true -> store_untouched st w -> store_untouched st (step w e).
Proof.
  intros E U.
  assert (E' : embed_only (handle e w) = true) by exact E.
  destruct (store_untouched_handle st e w E' U) as (V & P & A & Pp & S & T).
  unfold store_untouched, step, commit. cbn. repeat split; try done.
  unfold video_rendered. destruct (mounted _); [|done]. cbn.
  destruct (videoConfig (react (handle e w))) as [cfg|] eqn:C; [|done].
  by rewrite (embed_only_not_local _ cfg E' C).
Qed.

Lemma embed_only_step_back (w : World) (e : Event) :
  embed_only (step w e) = true -> embed_only w = true.
Proof. intros E. by apply (embed_only_back e w). Qed.

Lemma store_untouched_run (st : Storage) (es : list Event) (w : World) :
  embed_only (run w es) = true -> store_untouched st w -> store_untouched st (run w es).
Proof.
  revert w. induction es as [|e es IH]; intros w E U; [done|].
  change (run w (e :: es)) with (run (step w e) es) in *.
  apply IH; [done|]. apply store_untouched_step; [|done].
  clear IH U. revert E. generalize (step w e). clear w e.
  induction es as [|e es IH]; intros w E; [done|].
  change (run w (e :: es)) with (run (step w e) es) in E.
  by apply (embed_only_step_back w e), IH.
Qed.

(** X4. A session whose configuration is of type ['vimeo'] or
    ['google_drive'] never writes to the Progress Store and never clears
    it, whatever happens: no handler and no timer of such a session reaches
    [saveProgress] or [clearProgress], so these videos always start from
    the beginning. *)
Theorem embed_backends_never_touch_store
    (st : Storage) (session : bool) (clock : Z) (yt ops : bool) (es : list Event)
    (cfg : VideoConfig) :
  let w := run (mount st session clock yt ops) es in
  videoConfig (react w) = Some cfg ->
  type_is cfg "vimeo" || type_is cfg "google_drive" = true ->
  storage (sys w) = st
  /\ forallb (fun o => negb (is_store_obs o)) (trace (sys w)) = true
  /\ playerRef (refs w) = None
  /\ video_el (page w) = None.
Proof.
  intros w C T.
  assert (E : embed_only w = true) by (unfold embed_only; by rewrite C).
  destruct (store_untouched_run st es (mount st session clock yt ops) E) as (V & P & A & Pp & S & Tr).
  { by repeat split. }
  by repeat split.
Qed.
End EmbedOnly.


(** ** Unlocking *)

Section UnlockSafety.
Context `{JsonCodec}.

Lemma ConfigInv_handle (e : Event) (w : World) : ConfigInv w -> ConfigInv (handle e w).
Proof.
  intros I.
  destruct e as [r| |f| | | | | |s|[] q|dt|id| |].
  all: split; by_cases_on_handler; try done.
  all: try (intros id' t' cl' L Hc;
    repeat match goal with
      | L : <[_:=_]> _ !! _ = Some _ |- _ => apply lookup_insert_Some in L as [[<- <-]|[? L]]
      | L : delete _ _ !! _ = Some _ |- _ => apply lookup_delete_Some in L as [? L]
      end; simplify_eq/=).
  all: try (intros; simplify_eq/=).
  all: repeat match goal with
      | Hy : ?a = Some _, Hf : context [?a] |- _ => rewrite Hy in Hf; simplify_eq/=
      end.
  all: repeat match goal with
      | Hf : _ <$> ?a = Some _ |- _ => destruct a eqn:?; simplify_eq/=
      end.
  all: try match goal with
      | L : timers (sys _) !! _ = Some _, Hc : task_closure _ = Some _ |- _ =>
          destruct (cfg_polls _ I _ _ _ L Hc)
      end.
  all: try match goal with
      | Hp : play_promise (page _) = Some _ |- _ => destruct (cfg_promise _ I _ Hp)
      end.
  all: try match goal with
      | Ha : onYouTubeIframeAPIReady (page _) = Some _ |- _ =>
          destruct (cfg_api_ready _ I _ _ Ha)
      end.
  all: try match goal with
      | Hp : playerRef (refs _) = Some _ |- _ => destruct (cfg_player _ I _ Hp)
      end.
  all: try match goal with
      | Hv : video_el (page _) = Some _ |- _ => pose proof (cfg_video _ I _ Hv)
      end.
  all: unfold closure_current, capture in *; cbn in *.
  all: try (split; congruence); try congruence; try done.
  all: unfold when_ready, on_yt_media in *; repeat case_match; cbn in *.
  all: try (split; congruence); try congruence; try done.
Qed.

Lemma ConfigInv_commit (w : World) : ConfigInv w -> ConfigInv (commit w).
Proof.
  intros I. split; cbn.
  - apply (cfg_polls _ I).
  - apply (cfg_promise _ I).
  - apply (cfg_api_ready _ I).
  - apply (cfg_player _ I).
  - intros m. unfold video_rendered.
    destruct (mounted (page w)), (videoConfig (react w)); cbn; congruence.
Qed.

Lemma ConfigInv_run (es : list Event) (w : World) : ConfigInv w -> ConfigInv (run w es).
Proof.
  revert w. induction es as [|e es IH]; intros w I; [done|].
  cbn. by apply IH, ConfigInv_commit, ConfigInv_handle.
Qed.

Lemma ConfigInv_mount st session clock yt ops : ConfigInv (mount st session clock yt ops).
Proof. split; try done; cbn; intros ? ? ? L; by rewrite lookup_empty in L. Qed.

Lemma unlock_calls_commit (w : World) : unlock_calls (commit w) = unlock_calls w.
Proof. done. Qed.

(** X5. [onButtonEnable] is called by nothing but a tick of the armed
    poll whose reading is at or past the threshold of the configuration
    the component holds: the seconds since tracking started for Vimeo and
    Drive, the position of the element or of the attached player for the
    direct file and YouTube. No click, media event, save, page unload or
    unmount calls it, and no poll tick below the threshold. *)
Theorem unlock_only_at_threshold st session clock yt ops (es : list Event) (e : Event) :
  let w := run (mount st session clock yt ops) es in
  unlock_calls (step w e) <> unlock_calls w ->
  exists id t cfg reading,
    e = Fire id
    /\ timers (sys w) !! id = Some t
    /\ is_poll t = true
    /\ progressIntervalRef (refs w) = Some id
    /\ videoConfig (react w) = Some cfg
    /\ observed t w = Some reading
    /\ q_ge reading (button_delay_seconds cfg) = true
    /\ unlock_calls (step w e) = S (unlock_calls w).
Proof.
  intros w.
  assert (I : ConfigInv w) by apply ConfigInv_run, ConfigInv_mount.
  assert (T : timers_by_ref w).
  { apply timers_by_ref_run. intros ? ? L. cbn in L. by rewrite lookup_empty in L. }
  clearbody w. unfold step. rewrite !unlock_calls_commit. intros U.
  destruct e as [r| |f| | | | | |s|[] q|dt|id| |];
    try (exfalso; apply U; clear U I T; unfold unlock_calls;
         by_cases_on_handler; rewrite ?count_unlock_app; cbn; lia).
  cbn in U |- *. destruct (timers (sys w) !! id) as [t|] eqn:L; [|done].
  destruct (T id t L) as [Tp Ts].
  destruct t as [|cl startTime|cl startTime|cl|cl| |]; cbn in *;
    try (exfalso; apply U; clear U; unfold unlock_calls;
         by_cases_on_handler; rewrite ?count_unlock_app; cbn; lia).
  all: destruct (cfg_polls _ I _ _ _ L eq_refl) as [C N].
  all: destruct (videoConfig (react w)) as [cfg|] eqn:V; [|done].
  all: unfold unlock_calls in *; revert U; by_cases_on_handler; intros U; try done.
  all: repeat match goal with
      | Hb : _ && _ = true |- _ => apply andb_prop in Hb as [? ?]
      end.
  all: exists id; eexists; exists cfg; eexists.
  all: repeat split; try done; try (by apply Tp).
  all: cbn.
  all: repeat match goal with
      | Hy : ?a = _ |- context [?a] => rewrite Hy; cbn
      end; try done.
  all: rewrite ?count_unlock_app; cbn; try lia.
Qed.
End UnlockSafety.

(** ** The record a session works on *)

Section OwnRecord.
Context `{JsonCodec}.

Lemma saveProgress_other_key (st : Storage) (videoId : string) (v : Q) (clock : Z) (k : string) :
  k <> progress_key videoId ->
  entries (saveProgress st videoId v clock) !! k = entries st !! k.
Proof.
  intros N. unfold saveProgress, saveProgress_try, setItem.
  destruct (denied st); cbn; [done|]. destruct (quota_full st); cbn; [done|].
  by apply lookup_insert_ne.
Qed.

Lemma clearProgress_other_key (st : Storage) (videoId : string) (k : string) :
  k <> progress_key videoId ->
  entries (clearProgress st videoId) !! k = entries st !! k.
Proof.
  intros N. unfold clearProgress, clearProgress_try, removeItem.
  destruct (denied st); cbn; [done|]. by apply lookup_delete_ne.
Qed.

Lemma no_store_keys (x : string) (l : list Obs) :
  forallb (fun o => negb (is_store_obs o)) l = true -> keys_are x l.
Proof.
  unfold keys_are. induction l as [|o l IH]; cbn; intros F; [done|].
  apply andb_prop in F as [Fo Fl]. constructor; [by destruct o|by apply IH].
Qed.

Ltac use_config_inv I :=
  repeat match goal with
      | Hb : _ && _ = true |- _ => apply andb_prop in Hb as [? ?]
      end;
  try match goal with
      | L : timers (sys _) !! _ = Some _ |- _ => destruct (cfg_polls _ I _ _ _ L eq_refl)
      end;
  try match goal with
      | Hp : playerRef (refs _) = Some _ |- _ => destruct (cfg_player _ I _ Hp)
      end;
  try match goal with
      | Hv : video_el (page _) = Some _ |- _ => pose proof (cfg_video _ I _ Hv)
      end.

Lemma OwnKeys_handle (st : Storage) (e : Event) (w : World) :
  ConfigInv w -> OwnKeys st w -> OwnKeys st (handle e w).
Proof.
  intros I [Kt Kn Ks Ki]. unfold keys_are, saves_nonempty in *.
  destruct e as [r| |f| | | | | |s|[] q|dt|id| |].
  all: split; unfold keys_are, saves_nonempty; by_cases_on_handler; try done.
  all: use_config_inv I.
  all: try match goal with
      | Hi : None = None -> _ |- _ => destruct (Hi eq_refl) as [Si Ti]
      end.
  all: try (by apply no_store_keys).
  all: try (intros k Nk; rewrite ?saveProgress_other_key, ?clearProgress_other_key by done;
            first [by apply Ks | by rewrite Si]).
  all: rewrite ?Forall_app, ?forallb_app.
  all: repeat split; try done; try congruence.
  all: try (repeat constructor; cbn; intros; simplify_eq/=; done).
Qed.

Lemma OwnKeys_run (st : Storage) (es : list Event) (w : World) :
  ConfigInv w -> OwnKeys st w -> OwnKeys st (run w es).
Proof.
  revert w. induction es as [|e es IH]; intros w I K; [done|].
  change (run w (e :: es)) with (run (step w e) es). apply IH.
  - by apply ConfigInv_commit, ConfigInv_handle.
  - by destruct (OwnKeys_handle st e w I K).
Qed.

Lemma identity_kept (e : Event) (w : World) :
  videoConfig (react w) <> None ->
  currentVideoIdRef (refs (handle e w)) = currentVideoIdRef (refs w).
Proof.
  intros C. destruct e as [r| |f| | | | | |s|[] q|dt|id| |]; by_cases_on_handler; done.
Qed.

(** X6. A session works on one record of the Progress Store. Every save
    and every clear it has performed carries the identity that
    [currentVideoIdRef] holds, a save never the empty one; every entry of
    [localStorage] under another key is as the session found it; and once
    the configuration is loaded no event changes that identity. *)
Theorem session_touches_only_its_record
    (st : Storage) (session : bool) (clock : Z) (yt ops : bool) (es : list Event) :
  let w := run (mount st session clock yt ops) es in
  let id := currentVideoIdRef (refs w) in
  keys_are id (trace (sys w))
  /\ saves_nonempty (trace (sys w))
  /\ (forall k, k <> progress_key id -> entries (storage (sys w)) !! k = entries st !! k)
  /\ (forall e, videoConfig (react w) <> None -> currentVideoIdRef (refs (step w e)) = id).
Proof.
  intros w id.
  assert (K : OwnKeys st w).
  { apply OwnKeys_run; [apply ConfigInv_mount|]. split; cbn; try done; constructor. }
  destruct K as [Kt Kn Ks _]. repeat split; try done.
  intros e C. by apply identity_kept.
Qed.
End OwnRecord.

(** ** Where a YouTube session starts *)

Section YouTubeStart.
Context `{JsonCodec}.




End YouTubeStart.

(** ** What the patterns capture *)

Section PatternSoundness.
Variable G : nat -> list ascii -> Prop.

Lemma rmatch_sound (r : regex) :
  groups_ok G r ->
  forall (Q : captures -> Prop) (k : rcont) i s c m,
    captures_ok G c ->
    rmatch r i s c k = Some m ->
    (forall t s' c' m', s = (t ++ s')%list -> matches r i t -> captures_ok G c' ->
       k (i + length t)%nat s' c' = Some m' -> Q m') ->
    Q m.
Proof.
  induction r as [| |p|a IHa b IHb|a IHa b IHb|a IHa|a IHa|g a IHa];
    cbn [groups_ok rmatch]; intros Gr Q k i s c m Hc E K.
  - apply (K [] s c m); try done; [constructor|]. by rewrite Nat.add_0_r.
  - destruct (Nat.eqb_spec i 0) as [->|]; [|done].
    apply (K [] s c m); try done. constructor.
  - destruct s as [|x s]; [done|]. destruct (p x) eqn:Px; [|done].
    apply (K [x] s c m); try done; [by constructor|].
    by rewrite Nat.add_1_r.
  - destruct Gr as [Ga Gb].
    apply (IHa Ga Q _ i s c m Hc E). intros t1 s1 c1 m1 -> M1 Hc1 E1.
    apply (IHb Gb Q _ _ s1 c1 m1 Hc1 E1). intros t2 s2 c2 m2 -> M2 Hc2 E2.
    apply (K (t1 ++ t2)%list s2 c2 m2); try done.
    + by rewrite <- app_assoc.
    + by constructor.
    + by rewrite length_app, Nat.add_assoc.
  - destruct Gr as [Ga Gb].
    destruct (rmatch a i s c k) as [m0|] eqn:Ea.
    + injection E as ->. apply (IHa Ga Q _ i s c m Hc Ea).
      intros t s' c' m' -> M. apply K; [done|by apply matches_alt_l].
    + apply (IHb Gb Q _ i s c m Hc E).
      intros t s' c' m' -> M. apply K; [done|by apply matches_alt_r].
  - revert E. generalize (length s) at 1. intros n. revert i s c m Hc K.
    induction n as [|n IHn]; intros i s c m Hc K E.
    + apply (K [] s c m); try done; [constructor|]. by rewrite Nat.add_0_r.
    + destruct (rmatch a i s c _) as [m0|] eqn:Ea in E.
      * injection E as ->. apply (IHa Gr Q _ i s c m Hc Ea).
        intros t1 s1 c1 m1 -> M1 Hc1 E1.
        destruct (Nat.eqb_spec (i + length t1) i); [done|].
        apply (IHn (i + length t1)%nat s1 c1 m1 Hc1); [|exact E1].
        intros t2 s2 c2 m2 -> M2 Hc2 E2.
        apply (K (t1 ++ t2)%list s2 c2 m2); try done.
        -- by rewrite <- app_assoc.
        -- by constructor.
        -- by rewrite length_app, Nat.add_assoc.
      * apply (K [] s c m); try done; [constructor|]. by rewrite Nat.add_0_r.
  - destruct (rmatch a i s c k) as [m0|] eqn:Ea.
    + injection E as ->. apply (IHa Gr Q _ i s c m Hc Ea).
      intros t s' c' m' -> M. apply K; [done|by apply matches_opt_some].
    + apply (K [] s c m); try done; [constructor|]. by rewrite Nat.add_0_r.
  - destruct Gr as [Gg Ga].
    apply (IHa Ga Q _ i s c m Hc E). intros t s' c' m' -> M Hc' E'.
    apply (K t s' ((g, t) :: c') m'); try done.
    + by constructor.
    + constructor; [by apply (Gg i)|done].
    + replace (i + length t - i)%nat with (length t) in E' by lia.
      by rewrite take_app_length in E'.
Qed.

Lemma rsearch_sound (r : regex) (s : list ascii) :
  groups_ok G r -> (forall t, G 0%nat t) ->
  forall i m, rsearch r i s = Some m -> captures_ok G m.
Proof.
  intros Gr G0. induction s as [|x s IH]; intros i m; cbn [rsearch].
  - destruct (rmatch r i [] [] _) as [m0|] eqn:E; [|done]. intros [= <-].
    refine (rmatch_sound r Gr (captures_ok G) _ i [] [] m0 _ E _); [constructor|].
    intros t s' c' m' _ _ Hc' [= <-]. constructor; [apply G0|done].
  - destruct (rmatch r i (x :: s) [] _) as [m0|] eqn:E; [|apply IH]. intros [= <-].
    refine (rmatch_sound r Gr (captures_ok G) _ i (x :: s) [] m0 _ E _); [constructor|].
    intros t s' c' m' _ _ Hc' [= <-]. constructor; [apply G0|done].
Qed.

Lemma group_ok (m : captures) (g : nat) (id : string) :
  captures_ok G m -> group m g = Some id ->
  exists t, G g t /\ list_ascii_of_string id = t.
Proof.
  induction 1 as [|[g' t] m Ge Hm IH]; cbn; [done|].
  destruct (Nat.eqb_spec g' g) as [->|]; [|done].
  intros [= <-]. exists t. by rewrite list_ascii_of_string_of_list_ascii.
Qed.
End PatternSoundness.

Lemma matches_class_one (p : ascii -> bool) (i : nat) (t : list ascii) :
  matches (RClass p) i t -> exists x, t = [x] /\ p x = true.
Proof. inversion 1; subst. by eexists. Qed.

Lemma matches_star_class (p : ascii -> bool) (i : nat) (t : list ascii) :
  matches (RStar (RClass p)) i t -> forallb p t = true.
Proof.
  intros M. remember (RStar (RClass p)) as r eqn:R. revert R.
  induction M as [| | | | | | | | |a j t1 t2 M1 _ M2 IH2|]; intros R; try discriminate; [done|].
  injection R as ->. destruct (matches_class_one p j t1 M1) as (x & -> & Px).
  cbn. by rewrite Px, IH2.
Qed.

Lemma matches_plus_class (p : ascii -> bool) (i : nat) (t : list ascii) :
  matches (RPlus (RClass p)) i t -> forallb p t = true /\ t <> [].
Proof.
  unfold RPlus. inversion 1 as [| | |a b i0 t1 t2 M1 M2| | | | | | |]; subst.
  destruct (matches_class_one p i t1 M1) as (x & -> & Px).
  apply matches_star_class in M2. cbn. by rewrite Px, M2.
Qed.

Lemma vimeo_groups : groups_ok (class_group 1 is_d true) vimeo_regExp.
Proof.
  cbn. repeat split; try done.
  all: match goal with M : matches _ _ _ |- _ => apply matches_plus_class in M as [? ?] end.
  all: done.
Qed.

Lemma drive_groups : groups_ok (class_group 1 drive_class true) drive_regExp.
Proof.
  cbn. repeat split; try done.
  all: match goal with
       | M : matches _ _ _ |- _ => apply (matches_plus_class drive_class) in M as [? ?]
       end.
  all: done.
Qed.

Lemma youtube_groups : groups_ok (class_group 7 youtube_class false) youtube_regExp.
Proof.
  cbn. repeat split; try done.
  all: match goal with
       | M : matches _ _ _ |- _ => by apply (matches_star_class youtube_class) in M
       end.
Qed.

Lemma class_group_zero (g : nat) (p : ascii -> bool) (ne : bool) (t : list ascii) :
  class_group (S g) p ne 0%nat t.
Proof. intros E. discriminate. Qed.

Lemma first_group_class (p : ascii -> bool) (r : regex) (url id : string) :
  groups_ok (class_group 1 p true) r ->
  first_group (js_match url r) = Some id ->
  all_in p id = true /\ nonempty id = true.
Proof.
  intros Gr. unfold first_group, js_match.
  destruct (rsearch r 0 (list_ascii_of_string url)) as [m|] eqn:E; [|done]. intros Hg.
  pose proof (rsearch_sound (class_group 1 p true) r _ Gr (class_group_zero 0 p true) _ _ E) as S.
  destruct (group_ok _ m 1 id S Hg) as (t & Gt & Lt).
  destruct (Gt eq_refl) as [Ft Nt]. unfold all_in. rewrite Lt. split; [done|].
  unfold nonempty. destruct id; [|done]. cbn in Lt. subst t. by destruct (Nt eq_refl).
Qed.

(** X8. The id that [getVimeoVideoId] extracts is a non-empty string of
    decimal digits, and the file id that [getGoogleDriveFileId] extracts
    is a non-empty string of letters, digits, [_] and [-]: the tests
    [if (videoId)] and [if (fileId)] of the callers, once the match
    succeeded, never fail. *)
Theorem embed_ids_are_nonempty_words (url id : string) :
  (getVimeoVideoId url = Some id -> all_in is_d id = true /\ nonempty id = true)
  /\ (getGoogleDriveFileId url = Some id ->
      all_in drive_class id = true /\ nonempty id = true).
Proof.
  split.
  - apply (first_group_class is_d vimeo_regExp), vimeo_groups.
  - apply (first_group_class drive_class drive_regExp), drive_groups.
Qed.

(** X9. The id that [getYouTubeVideoId] returns holds none of the
    characters [#], [&] and [?] that end the id in an address. *)
Theorem youtube_id_has_no_separator (url id : string) :
  getYouTubeVideoId url = Normal (Some id) -> all_in youtube_class id = true.
Proof.
  intros E.
  unfold getYouTubeVideoId, js_match in E.
  destruct (rsearch youtube_regExp 0 (list_ascii_of_string url)) as [m|] eqn:Es; [|done].
  destruct (group m 7) as [id'|] eqn:Eg; [|done].
  destruct (String.length id' =? 11)%nat; [|done]. injection E as ->.
  pose proof (rsearch_sound (class_group 7 youtube_class false) youtube_regExp _
                youtube_groups (class_group_zero 6 youtube_class false) _ _ Es) as S.
  destruct (group_ok _ m 7 id S Eg) as (t & Gt & Lt).
  destruct (Gt eq_refl) as [Ft _]. unfold all_in. by rewrite Lt.
Qed.

Lemma youtube_id_has_no_separator_witness : all_in youtube_class "dQw4w9WgXcQ" = true.
Proof.
  apply (youtube_id_has_no_separator "https://www.youtube.com/watch?v=dQw4w9WgXcQ&t=42s").
  vm_compute. reflexivity.
Defined.

(** X10. The address of the embedded player is [null] exactly when the
    pattern finds no id in the configured address; otherwise it is the
    fixed prefix, the id and the fixed suffix, where the id is the
    non-empty word of X8. *)
Theorem embed_url_exactly_when_id (url : string) :
  getVimeoEmbedUrl url
  = (fun id => "https://player.vimeo.com/video/" +:+ id +:+ vimeo_embed_params)
      <$> getVimeoVideoId url
  /\ getGoogleDriveEmbedUrl url
     = (fun id => "https://drive.google.com/file/d/" +:+ id +:+ "/preview")
         <$> getGoogleDriveFileId url.
Proof.
  unfold getVimeoEmbedUrl, getGoogleDriveEmbedUrl. split.
  - destruct (getVimeoVideoId url) as [id|] eqn:E; [|done].
    apply (first_group_class is_d vimeo_regExp _ _ vimeo_groups) in E as [_ ->]. done.
  - destruct (getGoogleDriveFileId url) as [id|] eqn:E; [|done].
    apply (first_group_class drive_class drive_regExp _ _ drive_groups) in E as [_ ->]. done.
Qed.

(** ** The embed address read again *)

Lemma star_class_greedy (p : ascii -> bool) (x : ascii) (rest t : list ascii)
    (k : rcont) (m : captures) (i : nat) (c : captures) :
  p x = false -> forallb p t = true ->
  k (i + length t)%nat (x :: rest) c = Some m ->
  rmatch (RStar (RClass p)) i (t ++ x :: rest)%list c k = Some m.
Proof.
  intros stop F K. cbn [rmatch].
  assert (L : (length t <= length (t ++ x :: rest)%list)%nat) by (rewrite length_app; lia).
  revert L. generalize (length (t ++ x :: rest)%list). intros n. revert n i c K.
  induction t as [|y t IH]; cbn [forallb length app] in *; intros n i c K L.
  - rewrite Nat.add_0_r in K. destruct n as [|n]; [done|]. by rewrite stop.
  - apply andb_prop in F as [Py Ft]. destruct n as [|n]; [lia|]. rewrite Py.
    destruct (Nat.eqb_spec (S i) i) as [|_]; [lia|].
    rewrite (IH Ft n (S i) c); [done| |lia]. by rewrite <- K, Nat.add_succ_r.
Qed.

Lemma rmatch_lit (l : string) (i : nat) (s : list ascii) (c : captures) (k : rcont) :
  rmatch (RLit l) i (list_ascii_of_string l ++ s)%list c k = k (i + String.length l)%nat s c.
Proof.
  revert i. induction l as [|a l IH]; intros i; cbn.
  - by rewrite Nat.add_0_r.
  - rewrite Ascii.eqb_refl. fold (rmatch (RLit l)). by rewrite IH, Nat.add_succ_r.
Qed.

Lemma seq_lit (l : string) (a : regex) (i : nat) (s : list ascii) (c : captures) (k : rcont) :
  rmatch (RSeq (RLit l) a) i (list_ascii_of_string l ++ s)%list c k
  = rmatch a (i + String.length l)%nat s c k.
Proof. cbn [rmatch]. by rewrite rmatch_lit. Qed.

Lemma opt_lit_hit (l : string) (a : regex) (i : nat) (s : list ascii) (c : captures)
    (k : rcont) (m : captures) :
  rmatch a (i + String.length l)%nat s c k = Some m ->
  rmatch (RSeq (ROpt (RLit l)) a) i (list_ascii_of_string l ++ s)%list c k = Some m.
Proof. intros E. cbn [rmatch]. by rewrite rmatch_lit, E. Qed.

Lemma plus_group_greedy (p : ascii -> bool) (g : nat) (t : list ascii) (x : ascii)
    (rest : list ascii) (i : nat) (c : captures) (k : rcont) (m : captures) :
  forallb p t = true -> t <> [] -> p x = false ->
  k (i + length t)%nat (x :: rest) ((g, t) :: c) = Some m ->
  rmatch (RGroup g (RPlus (RClass p))) i (t ++ x :: rest)%list c k = Some m.
Proof.
  intros F N X K. destruct t as [|y t]; [done|]. cbn [forallb] in F.
  apply andb_prop in F as [Py Ft].
  unfold RPlus. cbn [rmatch app]. rewrite Py.
  change ((fix loop (n i0 : nat) (s0 : list ascii) (c0 : captures) {struct n} := _) _ _ _ _)
    with (rmatch (RStar (RClass p)) (S i) (t ++ x :: rest)%list c
            (fun i' s' c' => k i' s' ((g, take (i' - i) (y :: t ++ x :: rest)%list) :: c'))).
  apply star_class_greedy; try done.
  replace (S i + length t - i)%nat with (S (length t)) by lia.
  cbn [take]. rewrite take_app_length, <- K. cbn [length].
  by replace (i + S (length t))%nat with (S i + length t)%nat by lia.
Qed.

Lemma rsearch_skip (r : regex) (i : nat) (x : ascii) (s : list ascii) :
  rmatch r i (x :: s) [] (fun i' _ c => Some ((0%nat, take (i' - i) (x :: s)) :: c)) = None ->
  rsearch r i (x :: s) = rsearch r (S i) s.
Proof. cbn [rsearch]. by intros ->. Qed.

Lemma rsearch_hit (r : regex) (i : nat) (s : list ascii) (m : captures) :
  rmatch r i s [] (fun i' _ c => Some ((0%nat, take (i' - i) s) :: c)) = Some m ->
  rsearch r i s = Some m.
Proof. destruct s; cbn [rsearch]; by intros ->. Qed.

Lemma list_ascii_of_string_app (a b : string) :
  list_ascii_of_string (a +:+ b) = (list_ascii_of_string a ++ list_ascii_of_string b)%list.
Proof. induction a as [|x a IH]; [done|]. cbn [list_ascii_of_string app]. by rewrite <- IH. Qed.

Lemma all_in_word (p : ascii -> bool) (id : string) :
  all_in p id = true -> nonempty id = true ->
  forallb p (list_ascii_of_string id) = true /\ list_ascii_of_string id <> [].
Proof. intros A N. split; [done|]. by destruct id. Qed.

Lemma vimeo_id_of_embed (id : string) :
  all_in is_d id = true -> nonempty id = true ->
  getVimeoVideoId ("https://player.vimeo.com/video/" +:+ id +:+ vimeo_embed_params) = Some id.
Proof.
  intros A N. destruct (all_in_word is_d id A N) as [F Ne].
  unfold getVimeoVideoId, js_match. rewrite !list_ascii_of_string_app.
  set (t := list_ascii_of_string id) in *.
  remember (list_ascii_of_string vimeo_embed_params) as tl eqn:Etl.
  destruct tl as [|x rest]; [done|]. injection Etl as -> _.
  cbn [list_ascii_of_string app].
  do 15 (rewrite rsearch_skip by reflexivity).
  match goal with
  | |- first_group (rsearch _ _ ?s) = _ =>
      assert (E : exists m, rsearch vimeo_regExp 15 s = Some m /\ group m 1 = Some id)
  end.
  { eexists. split.
    - apply rsearch_hit.
      match goal with
      | |- rmatch _ _ _ _ ?k = ?rhs =>
          change (rmatch (RSeq (RLit "vimeo.com/")
                            (RSeq (ROpt (RLit "video/")) (RGroup 1 (RPlus (RClass is_d))))) 15
                    (list_ascii_of_string "vimeo.com/"
                     ++ list_ascii_of_string "video/" ++ t ++ "?"%char :: rest)%list [] k = rhs)
      end.
      rewrite seq_lit. apply opt_lit_hit. by apply plus_group_greedy.
    - cbn. unfold t. by rewrite string_of_list_ascii_of_string. }
  destruct E as (m & -> & G). exact G.
Qed.

Lemma drive_id_of_embed (id : string) :
  all_in drive_class id = true -> nonempty id = true ->
  getGoogleDriveFileId ("https://drive.google.com/file/d/" +:+ id +:+ "/preview") = Some id.
Proof.
  intros A N. destruct (all_in_word drive_class id A N) as [F Ne].
  unfold getGoogleDriveFileId, js_match. rewrite !list_ascii_of_string_app.
  set (t := list_ascii_of_string id) in *.
  remember (list_ascii_of_string "/preview") as tl eqn:Etl.
  destruct tl as [|x rest]; [done|]. injection Etl as -> _.
  cbn [list_ascii_of_string app].
  do 29 (rewrite rsearch_skip by reflexivity).
  match goal with
  | |- first_group (rsearch _ _ ?s) = _ =>
      assert (E : exists m, rsearch drive_regExp 29 s = Some m /\ group m 1 = Some id)
  end.
  { eexists. split.
    - apply rsearch_hit.
      match goal with
      | |- rmatch _ _ _ _ ?k = ?rhs =>
          change (rmatch (RSeq (RLit "/d/") (RGroup 1 (RPlus (RClass drive_class)))) 29
                    (list_ascii_of_string "/d/" ++ t ++ "/"%char :: rest)%list [] k = rhs)
      end.
      rewrite seq_lit. by apply plus_group_greedy.
    - cbn. unfold t. by rewrite string_of_list_ascii_of_string. }
  destruct E as (m & -> & G). exact G.
Qed.

(** X11. Read again by the extractor of the component, the address of
    the embedded player gives the id it was built from, for Vimeo as for
    Google Drive; so building the embed address of an embed address
    changes nothing. *)
Theorem embed_url_keeps_the_id (url u : string) :
  (getVimeoEmbedUrl url = Some u ->
   getVimeoVideoId u = getVimeoVideoId url /\ getVimeoEmbedUrl u = Some u)
  /\ (getGoogleDriveEmbedUrl url = Some u ->
      getGoogleDriveFileId u = getGoogleDriveFileId url /\ getGoogleDriveEmbedUrl u = Some u).
Proof.
  split; intros E.
  - unfold getVimeoEmbedUrl in *.
    destruct (getVimeoVideoId url) as [id|] eqn:Ei; [|done].
    pose proof (first_group_class is_d vimeo_regExp _ _ vimeo_groups Ei) as [A N].
    rewrite N in E. injection E as <-.
    by rewrite (vimeo_id_of_embed id A N), N.
  - unfold getGoogleDriveEmbedUrl in *.
    destruct (getGoogleDriveFileId url) as [id|] eqn:Ei; [|done].
    pose proof (first_group_class drive_class drive_regExp _ _ drive_groups Ei) as [A N].
    rewrite N in E. injection E as <-.
    by rewrite (drive_id_of_embed id A N), N.
Qed.

Lemma embed_url_keeps_the_id_witness :
  getVimeoVideoId
    ("https://player.vimeo.com/video/" +:+ "1142286537" +:+ vimeo_embed_params)
  = Some "1142286537".
Proof.
  destruct (embed_url_keeps_the_id (video_url default_config)
              ("https://player.vimeo.com/video/" +:+ "1142286537" +:+ vimeo_embed_params))
    as [V _].
  destruct (V ltac:(vm_compute; reflexivity)) as [-> _]. vm_compute. reflexivity.
Defined.

(** ** The store under repeated operations *)

Section LastOperation.
Context `{JsonCodec}.

(** X14. The Progress Store keeps one record for an identity and no
    history: a save replaces the record of an earlier save, a clear after
    a save leaves what a clear alone leaves, and a second clear changes
    nothing. This holds for every storage, also one that refuses access
    or is full, where the operations do nothing. *)
Theorem progress_store_last_operation_wins
    (st : Storage) (videoId : string) (v1 v2 : Q) (c1 c2 : Z) :
  saveProgress (saveProgress st videoId v1 c1) videoId v2 c2 = saveProgress st videoId v2 c2
  /\ clearProgress (saveProgress st videoId v1 c1) videoId = clearProgress st videoId
  /\ clearProgress (clearProgress st videoId) videoId = clearProgress st videoId.
Proof.
  unfold saveProgress, saveProgress_try, clearProgress, clearProgress_try, setItem, removeItem.
  destruct st as [m d f]. cbn. destruct d, f; cbn; repeat split; try done.
  all: by rewrite ?insert_insert_eq, ?delete_insert_eq, ?delete_delete_eq.
Qed.
End LastOperation.

(** ** Witnesses on the scenarios *)


Lemma embed_ids_are_nonempty_words_witness :
  all_in is_d "1142286537" = true /\ nonempty "1142286537" = true.
Proof.
  apply (proj1 (embed_ids_are_nonempty_words "https://vimeo.com/1142286537" "1142286537")).
  vm_compute. reflexivity.
Defined.

Lemma teardown_is_quiet_witness :
  let w := run (mount empty_storage true 0 false false) youtube_session in
  let w' := step w Unmount in
  let after := [Advance 10000; Fire 1; Fire 2; Fire 3; BeforeUnload] in
  beforeunload (page w') = None
  /\ trace (sys (run w' after)) = trace (sys w)
  /\ storage (sys (run w' after)) = storage (sys w).
Proof.
  intros w w' after.
  assert (M : mounted (page w) = true) by (vm_compute; reflexivity).
  assert (L : forallb later_event after = true) by (vm_compute; reflexivity).
  assert (S : storage (sys w') = storage (sys w)) by (vm_compute; reflexivity).
  destruct (teardown_is_quiet empty_storage true 0 false false youtube_session after M L)
    as (_ & _ & B & T & Ta & Sa).
  split; [exact B|]. split; [exact (eq_trans Ta T)|exact (eq_trans Sa S)].
Defined.

Lemma every_late_tick_unlocks_witness :
  let w := run (mount empty_storage true 0 false false)
               [ConfigLoaded FetchRejected; ManualPlay; Advance 180000; Fire 2; Advance 300] in
  unlock_calls w = 1%nat /\ unlock_calls (handle (Fire 2) w) = 2%nat.
Proof.
  intros w.
  assert (U : unlock_calls w = 1%nat) by (vm_compute; reflexivity).
  split; [exact U|]. rewrite <- U.
  destruct (every_late_tick_unlocks empty_storage true 0 false false
              [ConfigLoaded FetchRejected; ManualPlay; Advance 180000; Fire 2; Advance 300]
              2 (mkClosure (Some default_config) false) default_config eq_refl) as [V _].
  apply (V 0%Z); [left|]; vm_compute; reflexivity.
Defined.

Lemma embed_backends_never_touch_store_witness :
  let w := run (mount empty_storage true 0 false false) vimeo_three_ticks in
  videoConfig (react w) = Some default_config
  /\ storage (sys w) = empty_storage
  /\ playerRef (refs w) = None.
Proof.
  intros w.
  assert (C : videoConfig (react w) = Some default_config) by (vm_compute; reflexivity).
  assert (T : type_is default_config "vimeo" || type_is default_config "google_drive" = true)
    by (vm_compute; reflexivity).
  destruct (embed_backends_never_touch_store empty_storage true 0 false false
              vimeo_three_ticks default_config C T) as (S & _ & P & _).
  by repeat split.
Defined.

Lemma unlock_only_at_threshold_witness :
  let w := run (mount empty_storage true 0 false false)
               [ConfigLoaded FetchRejected; ManualPlay; Advance 180000] in
  exists id t cfg reading,
    Fire 2 = Fire id
    /\ timers (sys w) !! id = Some t
    /\ is_poll t = true
    /\ progressIntervalRef (refs w) = Some id
    /\ videoConfig (react w) = Some cfg
    /\ observed t w = Some reading
    /\ q_ge reading (button_delay_seconds cfg) = true
    /\ unlock_calls (step w (Fire 2)) = S (unlock_calls w).
Proof.
  intros w.
  assert (U : unlock_calls (step w (Fire 2)) <> unlock_calls w) by (vm_compute; lia).
  exact (unlock_only_at_threshold empty_storage true 0 false false
           [ConfigLoaded FetchRejected; ManualPlay; Advance 180000] (Fire 2) U).
Defined.
